(** * Conway's Game of Life: the grid update of [conways_game_of_life_app.py]

    The simulation core of the application is the body of [run_simulation]:
    the grid is allocated with [np.zeros], seeded from a pattern, and the
    closure [update] computes one generation per animation frame.  The code
    works on numpy arrays, which are mutable objects reached through
    references; [update] copies the current array, writes the copy and rebinds
    the closure variable [grid].  The embedding keeps that: arrays live in a
    store, the operations are written in a state-and-exception monad over it,
    and the theorems are about what the store holds afterwards. *)

From stdpp Require Import gmap list numbers strings.

Local Open Scope Z_scope.

(** ** Arrays, store, exceptions *)

(** A two-dimensional numpy array, row by row.  The cells of the program's
    grid are the floats 0.0 and 1.0; sums of at most eight of them are exact,
    so they are represented by integers. *)
Abbreviation ndarray := (list (list Z)).

(** The store maps a reference to the array it designates. *)
Abbreviation heap := (gmap nat ndarray).

Inductive exn : Type :=
  | ValueError          (* numpy: negative dimensions are not allowed *)
  | IndexError          (* numpy: index out of bounds for an axis *)
  | ZeroDivisionError   (* Python: integer modulo by zero *)
  | Unallocated.        (* a reference outside the store; Python has none *)

Inductive outcome (A : Type) : Type :=
  | Ok (a : A) (h : heap)
  | Raise (e : exn).
Arguments Ok {A} a h.
Arguments Raise {A} e.

Definition M (A : Type) : Type := heap → outcome A.

Definition ret {A} (a : A) : M A := λ h, Ok a h.

Definition raise {A} (e : exn) : M A := λ _, Raise e.

Definition bind {A B} (m : M A) (k : A → M B) : M B :=
  λ h, match m h with
       | Ok a h' => k a h'
       | Raise e => Raise e
       end.

Notation "'let*' x := m 'in' k" := (bind m (λ x, k))
  (at level 10, x name, m at level 100, k at level 200).
Notation "m ;; k" := (bind m (λ _, k))
  (at level 100, k at level 200, right associativity).

(** ** The Python and numpy operations the program uses *)

(** [a % n] on Python integers: the result takes the sign of the divisor, as
    [Z.modulo] does, and a zero divisor raises. *)
Definition py_mod (a n : Z) : M Z :=
  if n =? 0 then raise ZeroDivisionError else ret (a `mod` n).

(** [range(n)] *)
Definition range (n : Z) : list Z := seqZ 0 n.

(** [for x in xs: body(x)] *)
Fixpoint for_ {A} (xs : list A) (body : A → M unit) : M unit :=
  match xs with
  | [] => ret tt
  | x :: xs' => body x ;; for_ xs' body
  end.

(** [sum(f(x) for x in xs)]: the generator is consumed from left to right,
    starting from 0. *)
Fixpoint py_sum_from {A} (acc : Z) (xs : list A) (f : A → M Z) : M Z :=
  match xs with
  | [] => ret acc
  | x :: xs' => let* v := f x in py_sum_from (acc + v) xs' f
  end.

Definition py_sum {A} (xs : list A) (f : A → M Z) : M Z := py_sum_from 0 xs f.

(** numpy's index rule on an axis of length [n]: [0 <= i < n] is taken as it
    is, [-n <= i < 0] counts from the end, anything else is out of bounds. *)
Definition norm_index (n : nat) (i : Z) : option nat :=
  if bool_decide (0 ≤ i < Z.of_nat n) then Some (Z.to_nat i)
  else if bool_decide (- Z.of_nat n ≤ i < 0) then Some (Z.to_nat (i + Z.of_nat n))
  else None.

(** The cell in row [r], column [c] replaced by [v]. *)
Definition set_cell (g : ndarray) (r c : nat) (v : Z) : ndarray :=
  alter (λ row, <[c := v]> row) r g.

(** [np.zeros((rows, cols))]: a new array of zeros. *)
Definition np_zeros (shape : Z * Z) : M nat :=
  λ h, let '(rows, cols) := shape in
       if (rows <? 0) || (cols <? 0) then Raise ValueError
       else let a := fresh (dom h) in
            Ok a (<[a := replicate (Z.to_nat rows) (replicate (Z.to_nat cols) 0)]> h).

(** [a.copy()]: a new array with the contents of [a]. *)
Definition np_copy (a : nat) : M nat :=
  λ h, match h !! a with
       | None => Raise Unallocated
       | Some g => let b := fresh (dom h) in Ok b (<[b := g]> h)
       end.

(** The cell [g[i, j]] of an array, when both indices are within bounds. *)
Definition item (g : ndarray) (i j : Z) : option Z :=
  r ← norm_index (length g) i;
  row ← g !! r;
  c ← norm_index (length row) j;
  row !! c.

(** The array after [g[i, j] = v], when both indices are within bounds. *)
Definition store (g : ndarray) (i j : Z) (v : Z) : option ndarray :=
  r ← norm_index (length g) i;
  row ← g !! r;
  c ← norm_index (length row) j;
  Some (set_cell g r c v).

(** [a[i, j]] *)
Definition getitem (a : nat) (i j : Z) : M Z :=
  λ h, match h !! a with
       | None => Raise Unallocated
       | Some g =>
         match item g i j with
         | None => Raise IndexError
         | Some v => Ok v h
         end
       end.

(** [a[i, j] = v]: the array is changed in place, so every holder of the
    reference [a] sees the new cell. *)
Definition setitem (a : nat) (i j : Z) (v : Z) : M unit :=
  λ h, match h !! a with
       | None => Raise Unallocated
       | Some g =>
         match store g i j v with
         | None => Raise IndexError
         | Some g' => Ok tt (<[a := g']> h)
         end
       end.

(** ** The program *)

(** The eight offsets of the generator
    [for di in [-1, 0, 1] for dj in [-1, 0, 1] if (di, dj) != (0, 0)],
    in the order the generator yields them. *)
Definition offsets : list (Z * Z) :=
  di ← [-1; 0; 1]; dj ← [-1; 0; 1];
  if bool_decide ((di, dj) ≠ (0, 0)) then [(di, dj)] else [].

(** A grid of [rows] rows which all have [cols] cells. *)
Definition has_shape (g : ndarray) (rows cols : Z) : Prop :=
  Z.of_nat (length g) = rows ∧ Forall (λ row, Z.of_nat (length row) = cols) g.

(** Every cell is 0 (DEAD) or 1 (ALIVE). *)
Definition binary (g : ndarray) : Prop :=
  Forall (Forall (λ v, v = 0 ∨ v = 1)) g.

(** The value of a cell, 0 where [g[i, j]] is out of bounds. *)
Definition cell (g : ndarray) (i j : Z) : Z := default 0 (item g i j).

(** The sum of [f] over a list. *)
Fixpoint sumZ {A} (f : A → Z) (xs : list A) : Z :=
  match xs with
  | [] => 0
  | x :: xs' => f x + sumZ f xs'
  end.

Section Simulation.

(** The module constants [GRID_ROWS] and [GRID_COLS] (both 60 in the
    application). *)
Variables GRID_ROWS GRID_COLS : Z.

(** Line 112: [grid = np.zeros((GRID_ROWS, GRID_COLS))]. *)
Definition create : M nat := np_zeros (GRID_ROWS, GRID_COLS).

(** Lines 113-115: the seeding loop with its bounds test. *)
Definition seed (grid : nat) (cells : list (Z * Z)) : M unit :=
  for_ cells (λ '(i, j),
    if (0 <=? i) && (i <? GRID_ROWS) && (0 <=? j) && (j <? GRID_COLS)
    then setitem grid i j 1
    else ret tt).

(** Lines 124-127: the neighbour sum of cell [(i, j)], read from [grid]. *)
Definition neighbors (grid : nat) (i j : Z) : M Z :=
  py_sum offsets (λ '(di, dj),
    let* r := py_mod (i + di) GRID_ROWS in
    let* c := py_mod (j + dj) GRID_COLS in
    getitem grid r c).

(** Lines 118-133: [update(frame)].  The closure variable [grid] is passed
    in, and its new binding is the result; it is also the array handed to
    [img.set_data]. *)
Definition update (frame : Z) (grid : nat) : M nat :=
  let* new_grid := np_copy grid in
  for_ (range GRID_ROWS) (λ i,
    for_ (range GRID_COLS) (λ j,
      let* neighbors := neighbors grid i j in
      let* c := getitem grid i j in
      if (c =? 1) && ((neighbors <? 2) || (neighbors >? 3))
      then setitem new_grid i j 0
      else
        let* c' := getitem grid i j in
        if (c' =? 0) && (neighbors =? 3)
        then setitem new_grid i j 1
        else ret tt)) ;;
  ret new_grid.

(** Lines 112-115 together: the grid [run_simulation] starts from. *)
Definition run_simulation (cells : list (Z * Z)) : M nat :=
  let* grid := create in
  seed grid cells ;;
  ret grid.

(** The animation calls [update] once per frame, each call starting from
    the binding the previous one left. *)
Fixpoint animate (frames : list Z) (grid : nat) : M nat :=
  match frames with
  | [] => ret grid
  | frame :: frames' => let* grid' := update frame grid in animate frames' grid'
  end.

(** *** What the loops compute, on arrays *)

(** The positions the neighbour sum of [(i, j)] reads, in reading order. *)
Definition neighbor_cells (i j : Z) : list (Z * Z) :=
  (λ '(di, dj), ((i + di) `mod` GRID_ROWS, (j + dj) `mod` GRID_COLS)) <$> offsets.

(** The neighbour sum of [(i, j)] in the array [g]. *)
Definition count (g : ndarray) (i j : Z) : Z :=
  sumZ (λ '(r, c), cell g r c) (neighbor_cells i j).

(** The seeding loop on the array it writes. *)
Definition seed_cell (g : ndarray) (p : Z * Z) : ndarray :=
  let '(i, j) := p in
  if (0 <=? i) && (i <? GRID_ROWS) && (0 <=? j) && (j <? GRID_COLS)
  then set_cell g (Z.to_nat i) (Z.to_nat j) 1
  else g.

Definition seeded (g : ndarray) (cells : list (Z * Z)) : ndarray :=
  foldl seed_cell g cells.

(** The value the loop body of [update] leaves in a cell that held [old] in
    the copy, when the current generation has [c] there and [n] around it. *)
Definition rule (c n old : Z) : Z :=
  if (c =? 1) && ((n <? 2) || (n >? 3)) then 0
  else if (c =? 0) && (n =? 3) then 1
  else old.

(** One pass of the loop body of [update]: [g] is the current generation,
    [new] the copy being written. *)
Definition step_cell (g new : ndarray) (i j : Z) : ndarray :=
  if (cell g i j =? 1) && ((count g i j <? 2) || (count g i j >? 3))
  then set_cell new (Z.to_nat i) (Z.to_nat j) 0
  else if (cell g i j =? 0) && (count g i j =? 3)
  then set_cell new (Z.to_nat i) (Z.to_nat j) 1
  else new.

(** The two nested loops of [update], started on the copy of [g]. *)
Definition next_gen (g : ndarray) : ndarray :=
  foldl (λ new i, foldl (λ new j, step_cell g new i j) new (range GRID_COLS))
        g (range GRID_ROWS).

(** *** The reference rule *)

(** The four-case rule of Conway's game, recomputing a cell from scratch:
    an ALIVE cell with fewer than 2 or more than 3 live neighbours dies, an
    ALIVE cell with 2 or 3 survives, a DEAD cell with exactly 3 is born, any
    other DEAD cell stays DEAD.  ALIVE is 1 and DEAD is 0. *)
Definition conway_rule (c n : Z) : Z :=
  if c =? 1 then
    if (n <? 2) || (n >? 3) then 0 else 1
  else
    if n =? 3 then 1 else 0.

(** The next generation built cell by cell from the reference rule, with no
    copy of the current generation. *)
Definition advance_reference (g : ndarray) : ndarray :=
  (λ i, (λ j, conway_rule (cell g i j) (count g i j)) <$> range GRID_COLS)
    <$> range GRID_ROWS.

(** *** Grids the program can reach *)

(** The grids reached from a created grid by seeding and updating, each with
    the store it lives in. *)
Inductive reachable : heap → nat → Prop :=
  | reach_create h grid h' :
      create h = Ok grid h' → reachable h' grid
  | reach_seed h grid cells h' :
      reachable h grid → seed grid cells h = Ok tt h' → reachable h' grid
  | reach_update h grid frame grid' h' :
      reachable h grid → update frame grid h = Ok grid' h' → reachable h' grid'.

End Simulation.

(** The reference data of the application: the grid size and the patterns,
    a dictionary of dictionaries kept in source order. *)
Definition GRID_ROWS : Z := 60.
Definition GRID_COLS : Z := 60.

Definition Glider : list (Z * Z) := [(25, 26); (26, 27); (27, 25); (27, 26); (27, 27)].
Definition LWSS : list (Z * Z) :=
  [(25, 26); (26, 25); (26, 29); (27, 25); (28, 25); (28, 28); (28, 29); (29, 25);
   (29, 29)].
Definition Blinker : list (Z * Z) := [(30, 29); (30, 30); (30, 31)].
Definition Toad : list (Z * Z) :=
  [(25, 26); (25, 27); (25, 28); (26, 25); (26, 26); (26, 27)].

Definition PATTERNS : list (string * list (string * list (Z * Z))) :=
  [("Gliders"%string,
    [("Glider"%string, Glider); ("Lightweight Spaceship (LWSS)"%string, LWSS)]);
   ("Oscillators"%string,
    [("Blinker"%string, Blinker); ("Toad"%string, Toad)])].

(** [PATTERNS[category][name]] *)
Definition pattern (category name : string) : option (list (Z * Z)) :=
  items ← (list_to_map PATTERNS : gmap string (list (string * list (Z * Z)))) !! category;
  (list_to_map items : gmap string (list (Z * Z))) !! name.

(** The horizontal blinker centred at [(r, c)], as a pattern. *)
Definition blinker (r c : Z) : list (Z * Z) := [(r, c - 1); (r, c); (r, c + 1)].

(** The cell values of the horizontal blinker centred at [(r, c)], and of the
    vertical one, whose rows are taken around the torus of [rows] rows. *)
Definition horizontal (r c i j : Z) : Z :=
  if (i =? r) && (c - 1 <=? j) && (j <=? c + 1) then 1 else 0.

Definition vertical (rows r c i j : Z) : Z :=
  if (j =? c) && ((i =? (r + -1) `mod` rows) || (i =? r) || (i =? (r + 1) `mod` rows))
  then 1 else 0.

(** ** Patterns placed on the grid *)

(** A shape, given by offsets from a corner, placed with its corner at
    [(r, c)]; and the cell values of the grid that holds exactly the placed
    shape. *)
Definition place (shape : list (Z * Z)) (r c : Z) : list (Z * Z) :=
  (λ '(a, b), (r + a, c + b)) <$> shape.

Definition placed_cells (shape : list (Z * Z)) (r c i j : Z) : Z :=
  if existsb (λ '(a, b), (i =? r + a) && (j =? c + b)) shape then 1 else 0.

(** The 2×2 block, the two phases of the toad and the four phases of the
    glider.  [Toad] is [place toad_shape 25 25] and [Glider] is
    [place glider_shape 25 25]. *)
Definition block_shape : list (Z * Z) := [(0, 0); (0, 1); (1, 0); (1, 1)].
Definition toad_shape : list (Z * Z) :=
  [(0, 1); (0, 2); (0, 3); (1, 0); (1, 1); (1, 2)].
Definition toad_shape' : list (Z * Z) :=
  [(-1, 2); (0, 0); (0, 3); (1, 0); (1, 3); (2, 1)].
Definition glider_shape : list (Z * Z) := [(0, 1); (1, 2); (2, 0); (2, 1); (2, 2)].
Definition glider_shape1 : list (Z * Z) := [(1, 0); (1, 2); (2, 1); (2, 2); (3, 1)].
Definition glider_shape2 : list (Z * Z) := [(1, 2); (2, 0); (2, 2); (3, 1); (3, 2)].
Definition glider_shape3 : list (Z * Z) := [(1, 1); (2, 2); (2, 3); (3, 1); (3, 2)].

(** The loop body of [update] turns the cell values [f] into [f'] at every
    cell of a [rows]×[cols] grid. *)
Definition evolves (rows cols : Z) (f f' : Z → Z → Z) : Prop :=
  ∀ i j, 0 ≤ i < rows → 0 ≤ j < cols →
    rule (f i j) (sumZ (λ '(a, b), f a b) (neighbor_cells rows cols i j)) (f i j)
    = f' i j.

(** The grid [np.zeros] returns. *)
Definition blank (rows cols : Z) : ndarray :=
  replicate (Z.to_nat rows) (replicate (Z.to_nat cols) 0).

(** The grid [g] moved by [a] rows and [b] columns around the torus. *)
Definition shift (rows cols a b : Z) (g : ndarray) : ndarray :=
  (λ i, (λ j, cell g ((i - a) `mod` rows) ((j - b) `mod` cols)) <$> range cols)
    <$> range rows.

(** The number of live cells of a grid of 0 and 1. *)
Definition population (g : ndarray) : Z := sumZ (sumZ id) g.

(** ** The application object *)

Module GameOfLifeApp.

(** A child of the scrollable frame of the selection tab: a category label,
    or a button with the arguments its command was bound to when it was
    created ([lambda c=cells, n=name: self.run_simulation(c, n)]). *)
Inductive widget : Type :=
  | Label (text : string)
  | Button (text : string) (cells : list (Z * Z)) (name : string).

(** A [FuncAnimation] with the closure it calls: whether its timer
    ([event_source]) runs, the binding of the closure variable [grid], and
    the array last handed to the image ([ax.imshow], [img.set_data]). *)
Record animation : Type := Animation {
  running : bool;
  grid : nat;
  img : nat;
}.

(** The application object with what it reaches: the tabs of the notebook
    (their texts, in order) and the selected one, the children of the
    scrollable frame, the list [active_animations] (references into
    [animations], the animation objects in creation order), the arrays, and
    the exceptions reported by [print].  Window geometry, fonts, figure
    axes and the other layout calls carry no state the program reads back
    and are left out; the Tk and Matplotlib calls are taken to succeed. *)
Record app : Type := App {
  notebook : list string;
  selected : option nat;
  scrollable_frame : list widget;
  active_animations : list nat;
  animations : list animation;
  arrays : heap;
  printed : list exn;
}.

(** [ani.event_source.stop()] *)
Definition stop (ani : animation) : animation :=
  Animation false (grid ani) (img ani).

(** What the event loop delivers: a press on the [k]-th child of the
    scrollable frame, or a timer tick of an animation with the frame number
    Matplotlib passes. *)
Inductive event : Type :=
  | Press (k : nat)
  | Timer (ani : nat) (frame : Z).

Section Application.

(** The module constants. *)
Variables GRID_ROWS GRID_COLS : Z.
Variable PATTERNS : list (string * list (string * list (Z * Z))).

(** Lines 63-96, [setup_ui]: the selection tab (a notebook selects the
    first tab it is given), then one label per category and one button per
    pattern, in the order of [PATTERNS.items()]. *)
Definition setup_ui (self : app) : app :=
  App (notebook self ++ ["Select Pattern"%string])
      (match selected self with
       | None => Some (length (notebook self))
       | Some tab => Some tab
       end)
      (scrollable_frame self ++
       ('(category, items) ← PATTERNS;
        Label category :: ((λ '(name, cells), Button name cells name) <$> items)))
      (active_animations self) (animations self) (arrays self) (printed self).

(** Lines 48-61, the constructor: the notebook, [setup_ui], then the empty
    list of active animations. *)
Definition __init__ : app :=
  let self := setup_ui (App [] None [] [] [] ∅ []) in
  App (notebook self) (selected self) (scrollable_frame self) []
      (animations self) (arrays self) (printed self).

(** Lines 98-159, the method [run_simulation(cells, title)]: stop and
    forget the active animations, add and select a tab, build the grid,
    start an animation on it and remember it.  An exception of the grid
    code is caught and printed, after the animations were stopped and the
    tab was added. *)
Definition run_simulation (cells : list (Z * Z)) (title : string) (self : app) : app :=
  let stopped :=
    foldl (λ anis ani, alter stop ani anis) (animations self) (active_animations self) in
  let tabs := notebook self ++ [title] in
  let tab := Some (length (notebook self)) in
  match run_simulation GRID_ROWS GRID_COLS cells (arrays self) with
  | Ok grid arrays' =>
      App tabs tab (scrollable_frame self)
          [length stopped] (stopped ++ [Animation true grid grid]) arrays' (printed self)
  | Raise e =>
      App tabs tab (scrollable_frame self) [] stopped (arrays self) (printed self ++ [e])
  end.

(** The timer of animation [ani] fires: the closure [update] is called,
    rebinds [grid] and hands the new array to the image.  A stopped timer
    calls nothing; an exception leaves [grid] as it was. *)
Definition call_update (ani : nat) (frame : Z) (self : app) : app :=
  match animations self !! ani with
  | Some (Animation true grid _) =>
      match update GRID_ROWS GRID_COLS frame grid (arrays self) with
      | Ok grid' arrays' =>
          App (notebook self) (selected self) (scrollable_frame self)
              (active_animations self)
              (<[ani := Animation true grid' grid']> (animations self))
              arrays' (printed self)
      | Raise _ => self
      end
  | _ => self
  end.

Definition handle (self : app) (e : event) : app :=
  match e with
  | Press k =>
      match scrollable_frame self !! k with
      | Some (Button _ cells name) => run_simulation cells name self
      | _ => self
      end
  | Timer ani frame => call_update ani frame self
  end.

(** [root.mainloop()] over the events that occur. *)
Definition mainloop (self : app) (events : list event) : app :=
  foldl handle self events.

(** Lines 161-166, [main()]. *)
Definition main (events : list event) : app := mainloop __init__ events.

(** The titles of the simulations the events start. *)
Definition started (events : list event) : list string :=
  omap (λ e, match e with
             | Press k =>
                 match scrollable_frame __init__ !! k with
                 | Some (Button _ _ name) => Some name
                 | _ => None
                 end
             | Timer _ _ => None
             end) events.

(** What every state of the application satisfies: the widgets are those
    [setup_ui] made; an active animation is the only active one and the
    newest; a running animation is active; every animation shows the array
    its closure holds, a grid of 0 and 1 of the program's dimensions. *)
Record consistent (self : app) : Prop := {
  consistent_frame : scrollable_frame self = scrollable_frame __init__;
  consistent_active :
    ∀ ani, ani ∈ active_animations self →
      active_animations self = [ani] ∧ S ani = length (animations self);
  consistent_running :
    ∀ ani a, animations self !! ani = Some a → running a = true →
      ani ∈ active_animations self;
  consistent_grid :
    ∀ ani a, animations self !! ani = Some a →
      img a = grid a
      ∧ ∃ g, arrays self !! grid a = Some g
             ∧ has_shape g GRID_ROWS GRID_COLS ∧ binary g;
}.

End Application.

End GameOfLifeApp.

(** ** Proof automation *)

(** Closed goals on the shape and the cells of a literal grid. *)
Ltac literal_grid :=
  repeat first
    [ split; [reflexivity|]
    | apply Forall_nil_2
    | apply Forall_cons_2
    | reflexivity
    | left; reflexivity
    | right; reflexivity ].

(** Settles every integer test of the goal: a test the hypotheses decide is
    replaced by its value, any other one is split into its two cases. *)
Ltac settle_tests :=
  repeat match goal with
  | |- context [Z.gtb ?a ?b] => rewrite (Z.gtb_ltb a b)
  | |- context [Z.eqb ?a ?b] =>
      first [ rewrite (proj2 (Z.eqb_eq a b)) by lia
            | rewrite (proj2 (Z.eqb_neq a b)) by lia
            | destruct (Z.eqb_spec a b) ]
  | |- context [Z.leb ?a ?b] =>
      first [ rewrite (proj2 (Z.leb_le a b)) by lia
            | rewrite (proj2 (Z.leb_gt a b)) by lia
            | destruct (Z.leb_spec a b) ]
  | |- context [Z.ltb ?a ?b] =>
      first [ rewrite (proj2 (Z.ltb_lt a b)) by lia
            | rewrite (proj2 (Z.ltb_ge a b)) by lia
            | destruct (Z.ltb_spec a b) ]
  end.

(** * Properties *)

(** ** Arrays *)

Lemma norm_index_in (n : nat) (i : Z) :
  0 ≤ i < Z.of_nat n → norm_index n i = Some (Z.to_nat i).
Proof. intros Hi. unfold norm_index. by rewrite bool_decide_eq_true_2. Qed.

Lemma has_shape_row (g : ndarray) (rows cols : Z) (r : nat) (row : list Z) :
  has_shape g rows cols → g !! r = Some row → Z.of_nat (length row) = cols.
Proof.
  intros [_ Hrows] Hr. by apply (proj1 (Forall_lookup _ _) Hrows r row).
Qed.

Lemma has_shape_lookup (g : ndarray) (rows cols i j : Z) :
  has_shape g rows cols → 0 ≤ i < rows → 0 ≤ j < cols →
  ∃ row v, g !! Z.to_nat i = Some row ∧ Z.of_nat (length row) = cols
           ∧ row !! Z.to_nat j = Some v.
Proof.
  intros Hg Hi Hj.
  destruct (lookup_lt_is_Some_2 g (Z.to_nat i)) as [row Hrow].
  { destruct Hg as [Hlen _]. lia. }
  pose proof (has_shape_row _ _ _ _ _ Hg Hrow) as Hlen.
  destruct (lookup_lt_is_Some_2 row (Z.to_nat j)) as [v Hv]; [lia|].
  by exists row, v.
Qed.

Lemma item_in_range (g : ndarray) (rows cols i j : Z) :
  has_shape g rows cols → 0 ≤ i < rows → 0 ≤ j < cols →
  item g i j = Some (cell g i j).
Proof.
  intros Hg Hi Hj.
  destruct (has_shape_lookup _ _ _ _ _ Hg Hi Hj) as (row & v & Hrow & Hlen & Hv).
  assert (item g i j = Some v) as Hitem.
  { unfold item. rewrite norm_index_in by (destruct Hg; lia). simpl.
    rewrite Hrow. simpl. rewrite norm_index_in by lia. simpl. done. }
  unfold cell. by rewrite Hitem.
Qed.

Lemma store_in_range (g : ndarray) (rows cols i j v : Z) :
  has_shape g rows cols → 0 ≤ i < rows → 0 ≤ j < cols →
  store g i j v = Some (set_cell g (Z.to_nat i) (Z.to_nat j) v).
Proof.
  intros Hg Hi Hj.
  destruct (has_shape_lookup _ _ _ _ _ Hg Hi Hj) as (row & w & Hrow & Hlen & Hw).
  unfold store. rewrite norm_index_in by (destruct Hg; lia). simpl.
  rewrite Hrow. simpl. by rewrite norm_index_in by lia.
Qed.

Lemma has_shape_set_cell (g : ndarray) (rows cols : Z) (r c : nat) (v : Z) :
  has_shape g rows cols → has_shape (set_cell g r c v) rows cols.
Proof.
  intros [Hlen Hrows]. split.
  - unfold set_cell. by rewrite length_alter.
  - unfold set_cell. apply Forall_alter; [done|].
    intros row _ Hrow. by rewrite length_insert.
Qed.

Lemma binary_set_cell (g : ndarray) (r c : nat) (v : Z) :
  v = 0 ∨ v = 1 → binary g → binary (set_cell g r c v).
Proof.
  intros Hv Hg. unfold binary, set_cell.
  apply Forall_alter; [done|].
  intros row _ Hrow. by apply Forall_insert.
Qed.

Lemma cell_set_cell (g : ndarray) (rows cols i j i' j' v : Z) :
  has_shape g rows cols → 0 ≤ i < rows → 0 ≤ j < cols →
  0 ≤ i' < rows → 0 ≤ j' < cols →
  cell (set_cell g (Z.to_nat i) (Z.to_nat j) v) i' j'
  = if decide ((i', j') = (i, j)) then v else cell g i' j'.
Proof.
  intros Hg Hi Hj Hi' Hj'.
  pose proof (has_shape_set_cell g rows cols (Z.to_nat i) (Z.to_nat j) v Hg) as Hg'.
  destruct (has_shape_lookup _ _ _ _ _ Hg Hi' Hj') as (row & w & Hrow & Hlen & Hw).
  assert (item g i' j' = Some w) as Hitem.
  { unfold item. rewrite norm_index_in by (destruct Hg; lia). simpl.
    rewrite Hrow. simpl. rewrite norm_index_in by lia. done. }
  unfold cell at 2. rewrite Hitem. simpl.
  unfold cell, item.
  rewrite norm_index_in by (destruct Hg'; lia). simpl.
  unfold set_cell.
  destruct (decide (i' = i)) as [->|Hne].
  - rewrite list_lookup_alter_eq. rewrite Hrow. simpl.
    rewrite length_insert, norm_index_in by lia. simpl.
    destruct (decide (j' = j)) as [->|Hne'].
    + rewrite list_lookup_insert_eq by lia. by rewrite decide_True.
    + rewrite list_lookup_insert_ne by lia. rewrite Hw.
      rewrite decide_False; [done|congruence].
  - rewrite list_lookup_alter_ne by lia. rewrite Hrow. simpl.
    rewrite norm_index_in by lia. simpl. rewrite Hw.
    rewrite decide_False; [done|congruence].
Qed.

(** Two grids of one shape with the same cells are the same grid. *)
Lemma grid_ext (g1 g2 : ndarray) (rows cols : Z) :
  has_shape g1 rows cols → has_shape g2 rows cols →
  (∀ i j, 0 ≤ i < rows → 0 ≤ j < cols → cell g1 i j = cell g2 i j) →
  g1 = g2.
Proof.
  intros H1 H2 Hcells.
  apply list_eq_same_length with (Z.to_nat rows);
    [destruct H1, H2; lia | destruct H1, H2; lia |].
  intros r row1 row2 Hr Hrow1 Hrow2.
  pose proof (has_shape_row _ _ _ _ _ H1 Hrow1) as Hl1.
  pose proof (has_shape_row _ _ _ _ _ H2 Hrow2) as Hl2.
  apply list_eq_same_length with (Z.to_nat cols); [lia | lia |].
  intros c v1 v2 Hc Hv1 Hv2.
  specialize (Hcells (Z.of_nat r) (Z.of_nat c) ltac:(lia) ltac:(lia)).
  unfold cell, item in Hcells.
  rewrite !norm_index_in in Hcells by (destruct H1, H2; lia).
  simpl in Hcells. rewrite !Nat2Z.id in Hcells.
  rewrite Hrow1, Hrow2 in Hcells. simpl in Hcells.
  rewrite !norm_index_in in Hcells by lia. simpl in Hcells.
  rewrite !Nat2Z.id in Hcells. rewrite Hv1, Hv2 in Hcells. done.
Qed.

(** ** Running the operations *)

Lemma getitem_run (h : heap) (a : nat) (g : ndarray) (rows cols i j : Z) :
  h !! a = Some g → has_shape g rows cols → 0 ≤ i < rows → 0 ≤ j < cols →
  getitem a i j h = Ok (cell g i j) h.
Proof.
  intros Ha Hg Hi Hj. unfold getitem.
  by rewrite Ha, (item_in_range g rows cols).
Qed.

Lemma setitem_run (h : heap) (a : nat) (g : ndarray) (rows cols i j v : Z) :
  h !! a = Some g → has_shape g rows cols → 0 ≤ i < rows → 0 ≤ j < cols →
  setitem a i j v h = Ok tt (<[a := set_cell g (Z.to_nat i) (Z.to_nat j) v]> h).
Proof.
  intros Ha Hg Hi Hj. unfold setitem.
  by rewrite Ha, (store_in_range g rows cols).
Qed.

Lemma py_sum_from_run {A} (h : heap) (f : A → M Z) (v : A → Z) (xs : list A) (acc : Z) :
  (∀ x, x ∈ xs → f x h = Ok (v x) h) →
  py_sum_from acc xs f h = Ok (acc + sumZ v xs) h.
Proof.
  revert acc. induction xs as [|x xs IH]; intros acc Hf; simpl.
  - unfold ret. f_equal. lia.
  - unfold bind. rewrite Hf by left.
    rewrite IH by (intros y Hy; apply Hf; by right).
    f_equal. lia.
Qed.

(** A loop whose body only rewrites the array at [a]. *)
Lemma for_fold {A} (a : nat) (body : A → M unit) (f : ndarray → A → ndarray)
    (P : ndarray → Prop) (h : heap) (xs : list A) (n : ndarray) :
  (∀ x n, x ∈ xs → P n →
     body x (<[a := n]> h) = Ok tt (<[a := f n x]> h) ∧ P (f n x)) →
  P n →
  for_ xs body (<[a := n]> h) = Ok tt (<[a := foldl f n xs]> h) ∧ P (foldl f n xs).
Proof.
  revert n. induction xs as [|x xs IH]; intros n Hbody Hn; simpl.
  - done.
  - destruct (Hbody x n) as [Hrun HP]; [by left | done |].
    unfold bind. rewrite Hrun.
    apply IH; [|done].
    intros y m Hy Hm. apply Hbody; [by right | done].
Qed.

Lemma fresh_unused (h : heap) : h !! fresh (dom h) = None.
Proof. apply not_elem_of_dom, is_fresh. Qed.

Lemma np_copy_run (h : heap) (a : nat) (g : ndarray) :
  h !! a = Some g → np_copy a h = Ok (fresh (dom h)) (<[fresh (dom h) := g]> h).
Proof. intros Ha. unfold np_copy. by rewrite Ha. Qed.

Section Runs.

Variables rows cols : Z.

Lemma neighbor_cells_in_range (i j r c : Z) :
  0 < rows → 0 < cols → (r, c) ∈ neighbor_cells rows cols i j →
  0 ≤ r < rows ∧ 0 ≤ c < cols.
Proof.
  intros Hr Hc Hin. unfold neighbor_cells in Hin.
  apply list_elem_of_fmap in Hin as [[di dj] [Heq _]].
  injection Heq as -> ->.
  split; apply Z.mod_pos_bound; lia.
Qed.

Lemma neighbors_run (h : heap) (grid : nat) (g : ndarray) (i j : Z) :
  h !! grid = Some g → has_shape g rows cols → 0 < rows → 0 < cols →
  neighbors rows cols grid i j h = Ok (count rows cols g i j) h.
Proof.
  intros Hgrid Hg Hr Hc. unfold neighbors, py_sum, count, neighbor_cells.
  rewrite (py_sum_from_run h _
    (λ '(di, dj), cell g ((i + di) `mod` rows) ((j + dj) `mod` cols))).
  - done.
  - intros [di dj] _. unfold bind, py_mod.
    rewrite !(proj2 (Z.eqb_neq _ 0)) by lia. unfold ret.
    apply (getitem_run h grid g rows cols); [done | done | |];
      apply Z.mod_pos_bound; lia.
Qed.

(** *** Seeding *)

Lemma has_shape_seed_cell (g : ndarray) (p : Z * Z) :
  has_shape g rows cols → has_shape (seed_cell rows cols g p) rows cols.
Proof.
  intros Hg. destruct p as [i j]. unfold seed_cell.
  case_match; [by apply has_shape_set_cell | done].
Qed.

Lemma has_shape_seeded (cells : list (Z * Z)) (g : ndarray) :
  has_shape g rows cols → has_shape (seeded rows cols g cells) rows cols.
Proof.
  revert g. induction cells as [|p cells IH]; intros g Hg; simpl; [done|].
  apply IH. by apply has_shape_seed_cell.
Qed.

Lemma seed_run (h : heap) (grid : nat) (g : ndarray) (cells : list (Z * Z)) :
  h !! grid = Some g → has_shape g rows cols →
  seed rows cols grid cells h = Ok tt (<[grid := seeded rows cols g cells]> h).
Proof.
  intros Hgrid Hg. unfold seed.
  rewrite <-(insert_id h grid g Hgrid) at 1.
  apply (for_fold grid _ (seed_cell rows cols) (λ n, has_shape n rows cols));
    [|done].
  intros [i j] n _ Hn. split; [|by apply has_shape_seed_cell].
  unfold seed_cell.
  destruct ((0 <=? i) && (i <? rows) && (0 <=? j) && (j <? cols)) eqn:Hin.
  - rewrite (setitem_run _ grid n rows cols); [|by rewrite lookup_insert_eq|done|lia|lia].
    by rewrite insert_insert_eq.
  - done.
Qed.

(** *** One generation *)

Lemma has_shape_step_cell (g new : ndarray) (i j : Z) :
  has_shape new rows cols → has_shape (step_cell rows cols g new i j) rows cols.
Proof.
  intros Hn. unfold step_cell.
  repeat case_match; by try apply has_shape_set_cell.
Qed.

Lemma update_run (h : heap) (frame : Z) (grid : nat) (g : ndarray) :
  h !! grid = Some g → has_shape g rows cols →
  update rows cols frame grid h
  = Ok (fresh (dom h)) (<[fresh (dom h) := next_gen rows cols g]> h).
Proof.
  intros Hgrid Hg. unfold update, bind at 1.
  rewrite (np_copy_run h grid g Hgrid).
  set (b := fresh (dom h)).
  assert (b ≠ grid) as Hne.
  { intros Heq. pose proof (fresh_unused h) as Hf. fold b in Hf.
    rewrite Heq in Hf. congruence. }
  unfold bind at 1.
  destruct (for_fold b
    (λ i, for_ (range cols) (λ j,
      let* neighbors := neighbors rows cols grid i j in
      let* c := getitem grid i j in
      if (c =? 1) && ((neighbors <? 2) || (neighbors >? 3))
      then setitem b i j 0
      else
        let* c' := getitem grid i j in
        if (c' =? 0) && (neighbors =? 3)
        then setitem b i j 1
        else ret tt))
    (λ new i, foldl (λ new j, step_cell rows cols g new i j) new (range cols))
    (λ n, has_shape n rows cols) h (range rows) g) as [Hrun _]; [|done|].
  - intros i n Hi Hn. apply elem_of_seqZ in Hi.
    apply (for_fold b _ (λ new j, step_cell rows cols g new i j)
             (λ n, has_shape n rows cols)); [|done].
    intros j m Hj Hm. apply elem_of_seqZ in Hj.
    split; [|by apply has_shape_step_cell].
    assert (<[b := m]> h !! grid = Some g) as Hgrid'
      by by rewrite lookup_insert_ne.
    unfold bind.
    rewrite (neighbors_run _ grid g i j Hgrid' Hg) by lia.
    rewrite (getitem_run _ grid g rows cols i j Hgrid' Hg) by lia.
    unfold step_cell.
    destruct ((cell g i j =? 1) && _) eqn:Hdie.
    + rewrite (setitem_run _ b m rows cols); [|by rewrite lookup_insert_eq|done|lia|lia].
      by rewrite insert_insert_eq.
    + rewrite (getitem_run _ grid g rows cols i j Hgrid' Hg) by lia.
      destruct ((cell g i j =? 0) && _) eqn:Hborn.
      * rewrite (setitem_run _ b m rows cols); [|by rewrite lookup_insert_eq|done|lia|lia].
        by rewrite insert_insert_eq.
      * done.
  - rewrite Hrun. done.
Qed.

End Runs.

(** ** The cells of the next generation *)

Lemma rule_idem (c n old : Z) : rule c n (rule c n old) = rule c n old.
Proof. unfold rule. repeat case_match; done. Qed.

Lemma rule_conway (c n : Z) : c = 0 ∨ c = 1 → rule c n c = conway_rule c n.
Proof.
  intros [-> | ->]; unfold rule, conway_rule; simpl; repeat case_match; done.
Qed.

Lemma rule_binary (c n old : Z) : old = 0 ∨ old = 1 → rule c n old = 0 ∨ rule c n old = 1.
Proof. intros Hold. unfold rule. repeat case_match; auto. Qed.

Section Cells.

Variables rows cols : Z.

Lemma cell_step_cell (g new : ndarray) (i j i' j' : Z) :
  has_shape new rows cols → 0 ≤ i < rows → 0 ≤ j < cols →
  0 ≤ i' < rows → 0 ≤ j' < cols →
  cell (step_cell rows cols g new i j) i' j'
  = if decide ((i', j') = (i, j))
    then rule (cell g i j) (count rows cols g i j) (cell new i j)
    else cell new i' j'.
Proof.
  intros Hn Hi Hj Hi' Hj'. unfold step_cell, rule.
  repeat case_match; try done;
    rewrite ?(cell_set_cell new rows cols) by done;
    repeat case_decide; congruence.
Qed.

Lemma cell_row_loop (g : ndarray) (i : Z) (js : list Z) (new : ndarray) (i' j' : Z) :
  has_shape new rows cols → 0 ≤ i < rows → (∀ j, j ∈ js → 0 ≤ j < cols) →
  0 ≤ i' < rows → 0 ≤ j' < cols →
  cell (foldl (λ new j, step_cell rows cols g new i j) new js) i' j'
  = if decide (i' = i ∧ j' ∈ js)
    then rule (cell g i j') (count rows cols g i j') (cell new i j')
    else cell new i' j'.
Proof.
  intros Hn Hi Hjs Hi' Hj'. revert new Hn.
  induction js as [|j js IH]; intros new Hn; simpl.
  - rewrite decide_False; [done|]. intros [_ Hin]. by apply not_elem_of_nil in Hin.
  - assert (0 ≤ j < cols) as Hj by (apply Hjs; left).
    rewrite IH;
      [|intros k Hk; apply Hjs; by right|by apply has_shape_step_cell].
    rewrite !(cell_step_cell g new) by done.
    destruct (decide (i' = i ∧ j' ∈ js)) as [[-> Hin]|Hout].
    + rewrite (decide_True (P := i = i ∧ j' ∈ j :: js)) by (split; [done|by right]).
      case_decide as Heq; [|done]. injection Heq as ->. by rewrite rule_idem.
    + case_decide as Heq.
      * injection Heq as -> ->.
        rewrite (decide_True (P := i = i ∧ j ∈ j :: js)) by (split; [done|left]).
        done.
      * rewrite decide_False; [done|].
        intros [-> Hin]. apply elem_of_cons in Hin as [->|Hin]; [done|].
        apply Hout. done.
Qed.

Lemma has_shape_row_loop (g : ndarray) (i : Z) (js : list Z) (new : ndarray) :
  has_shape new rows cols →
  has_shape (foldl (λ new j, step_cell rows cols g new i j) new js) rows cols.
Proof.
  revert new. induction js as [|j js IH]; intros new Hn; simpl; [done|].
  by apply IH, has_shape_step_cell.
Qed.

Lemma cell_grid_loop (g : ndarray) (rs : list Z) (new : ndarray) (i' j' : Z) :
  has_shape new rows cols → (∀ i, i ∈ rs → 0 ≤ i < rows) →
  0 ≤ i' < rows → 0 ≤ j' < cols →
  cell (foldl (λ new i, foldl (λ new j, step_cell rows cols g new i j) new (range cols))
          new rs) i' j'
  = if decide (i' ∈ rs)
    then rule (cell g i' j') (count rows cols g i' j') (cell new i' j')
    else cell new i' j'.
Proof.
  intros Hn Hrs Hi' Hj'. revert new Hn.
  assert (j' ∈ range cols) as Hrange by (apply elem_of_seqZ; lia).
  assert (∀ j, j ∈ range cols → 0 ≤ j < cols) as Hjs
    by (intros j Hj; apply elem_of_seqZ in Hj; lia).
  induction rs as [|i rs IH]; intros new Hn; cbn [foldl].
  - rewrite decide_False; [done|]. apply not_elem_of_nil.
  - assert (0 ≤ i < rows) as Hi by (apply Hrs; left).
    rewrite IH; [|intros k Hk; apply Hrs; by right|by apply has_shape_row_loop].
    rewrite !(cell_row_loop g i (range cols) new) by done.
    destruct (decide (i' ∈ rs)) as [Hin|Hout].
    + rewrite (decide_True (P := i' ∈ i :: rs)) by by right.
      case_decide as Heq; [|done]. destruct Heq as [-> _]. by rewrite rule_idem.
    + case_decide as Heq.
      * destruct Heq as [-> _]. rewrite (decide_True (P := i ∈ i :: rs)) by left.
        done.
      * rewrite decide_False; [done|].
        intros Hin. apply elem_of_cons in Hin as [->|Hin]; [|done].
        apply Heq. done.
Qed.

Lemma has_shape_grid_loop (g : ndarray) (rs : list Z) (new : ndarray) :
  has_shape new rows cols →
  has_shape
    (foldl (λ new i, foldl (λ new j, step_cell rows cols g new i j) new (range cols))
       new rs) rows cols.
Proof.
  revert new. induction rs as [|i rs IH]; intros new Hn; simpl; [done|].
  by apply IH, has_shape_row_loop.
Qed.

Lemma has_shape_next_gen (g : ndarray) :
  has_shape g rows cols → has_shape (next_gen rows cols g) rows cols.
Proof. apply has_shape_grid_loop. Qed.

Lemma cell_next_gen (g : ndarray) (i j : Z) :
  has_shape g rows cols → 0 ≤ i < rows → 0 ≤ j < cols →
  cell (next_gen rows cols g) i j
  = rule (cell g i j) (count rows cols g i j) (cell g i j).
Proof.
  intros Hg Hi Hj. unfold next_gen.
  rewrite cell_grid_loop; [|done|intros k Hk; apply elem_of_seqZ in Hk; lia|done|done].
  rewrite decide_True; [done|]. apply elem_of_seqZ. lia.
Qed.

End Cells.

(** ** Cell values *)

Lemma item_elem (g : ndarray) (i j v : Z) :
  item g i j = Some v → ∃ row, row ∈ g ∧ v ∈ row.
Proof.
  unfold item. intros Hitem.
  destruct (norm_index (length g) i) as [r|]; simpl in Hitem; [|done].
  destruct (g !! r) as [row|] eqn:Hrow; simpl in Hitem; [|done].
  destruct (norm_index (length row) j) as [c|]; simpl in Hitem; [|done].
  exists row. split; eapply list_elem_of_lookup_2; eauto.
Qed.

Lemma cell_binary (g : ndarray) (i j : Z) :
  binary g → cell g i j = 0 ∨ cell g i j = 1.
Proof.
  intros Hg. unfold cell.
  destruct (item g i j) as [v|] eqn:Hitem; simpl; [|by left].
  apply item_elem in Hitem as (row & Hrow & Hv).
  unfold binary in Hg. rewrite list.Forall_forall in Hg.
  specialize (Hg row Hrow). rewrite list.Forall_forall in Hg. by apply Hg.
Qed.

Lemma sumZ_bounds {A} (f : A → Z) (xs : list A) :
  (∀ x, x ∈ xs → 0 ≤ f x ≤ 1) → 0 ≤ sumZ f xs ≤ Z.of_nat (length xs).
Proof.
  induction xs as [|x xs IH]; intros Hf; simpl; [lia|].
  specialize (Hf x (list_elem_of_here _ _)) as Hx.
  assert (0 ≤ sumZ f xs ≤ Z.of_nat (length xs)) as Hxs
    by (apply IH; intros y Hy; apply Hf; by right).
  lia.
Qed.

Lemma sumZ_elem {A} (f : A → Z) (xs : list A) (x : A) :
  (∀ y, y ∈ xs → 0 ≤ f y) → x ∈ xs → f x ≤ sumZ f xs.
Proof.
  induction xs as [|y xs IH]; intros Hf Hx; simpl.
  - by apply not_elem_of_nil in Hx.
  - assert (0 ≤ sumZ f xs) as Hxs.
    { clear IH Hx. induction xs as [|z xs IH]; simpl; [lia|].
      assert (0 ≤ f z) by (apply Hf; right; left).
      assert (0 ≤ sumZ f xs) by (apply IH; intros w Hw; apply Hf;
        apply elem_of_cons in Hw as [->|Hw]; [left | right; by right]).
      lia. }
    assert (0 ≤ f y) by (apply Hf; left).
    apply elem_of_cons in Hx as [->|Hx]; [lia|].
    assert (f x ≤ sumZ f xs) by (apply IH; [intros w Hw; apply Hf; by right|done]).
    lia.
Qed.

Lemma neighbor_cells_length (rows cols i j : Z) :
  length (neighbor_cells rows cols i j) = 8%nat.
Proof. unfold neighbor_cells. by rewrite length_fmap. Qed.

Lemma count_bounds (rows cols : Z) (g : ndarray) (i j : Z) :
  binary g → 0 ≤ count rows cols g i j ≤ 8.
Proof.
  intros Hg. unfold count.
  pose proof (sumZ_bounds (λ '(r, c), cell g r c) (neighbor_cells rows cols i j)) as H.
  rewrite neighbor_cells_length in H. apply H.
  intros [r c] _. destruct (cell_binary g r c Hg); lia.
Qed.

Lemma binary_step_cell (rows cols : Z) (g new : ndarray) (i j : Z) :
  binary new → binary (step_cell rows cols g new i j).
Proof.
  intros Hn. unfold step_cell.
  repeat case_match; try done; apply binary_set_cell; auto.
Qed.

Lemma binary_next_gen (rows cols : Z) (g : ndarray) :
  binary g → binary (next_gen rows cols g).
Proof.
  unfold next_gen. generalize (range rows) as rs. intros rs.
  generalize g at 1 3 as new. intros new. revert new.
  induction rs as [|i rs IH]; intros new Hn; simpl; [done|].
  apply IH. generalize (range cols) as js. intros js. revert new Hn.
  induction js as [|j js IHj]; intros new Hn; simpl; [done|].
  by apply IHj, binary_step_cell.
Qed.

Lemma binary_seeded (rows cols : Z) (cells : list (Z * Z)) (g : ndarray) :
  binary g → binary (seeded rows cols g cells).
Proof.
  revert g. induction cells as [|[i j] cells IH]; intros g Hg; simpl; [done|].
  apply IH. case_match; [apply binary_set_cell; auto | done].
Qed.

Lemma cell_seeded (rows cols : Z) (cells : list (Z * Z)) (g : ndarray) (i j : Z) :
  has_shape g rows cols → 0 ≤ i < rows → 0 ≤ j < cols →
  cell (seeded rows cols g cells) i j
  = if decide ((i, j) ∈ cells) then 1 else cell g i j.
Proof.
  intros Hg Hi Hj. revert g Hg.
  induction cells as [|[a b] cells IH]; intros g Hg; cbn [seeded foldl].
  - rewrite decide_False; [done|]. apply not_elem_of_nil.
  - fold (seeded rows cols (seed_cell rows cols g (a, b)) cells).
    rewrite IH by by apply has_shape_seed_cell.
    destruct (decide ((i, j) ∈ cells)) as [Hin|Hout].
    + rewrite decide_True; [done|by right].
    + unfold seed_cell.
      destruct ((0 <=? a) && (a <? rows) && (0 <=? b) && (b <? cols)) eqn:Hab.
      * rewrite (cell_set_cell g rows cols) by (done || lia).
        case_decide as Heq.
        -- rewrite decide_True; [done|]. rewrite Heq. left.
        -- rewrite decide_False; [done|].
           intros Hin. apply elem_of_cons in Hin as [?|?]; done.
      * rewrite decide_False; [done|].
        intros Hin. apply elem_of_cons in Hin as [Heq|?]; [|done].
        injection Heq as -> ->. lia.
Qed.

(** ** The grid of zeros *)

Lemma has_shape_zeros (rows cols : Z) :
  0 ≤ rows → 0 ≤ cols →
  has_shape (replicate (Z.to_nat rows) (replicate (Z.to_nat cols) 0)) rows cols.
Proof.
  intros Hr Hc. split.
  - rewrite length_replicate. lia.
  - apply Forall_replicate. rewrite length_replicate. lia.
Qed.

Lemma zeros_all_dead (n m : nat) :
  Forall (Forall (λ v, v = 0)) (replicate n (replicate m 0)).
Proof. apply Forall_replicate, Forall_replicate. done. Qed.

Lemma binary_zeros (n m : nat) : binary (replicate n (replicate m 0)).
Proof. apply Forall_replicate, Forall_replicate. by left. Qed.

Lemma cell_zeros (n m : nat) (i j : Z) : cell (replicate n (replicate m 0)) i j = 0.
Proof.
  unfold cell. destruct (item _ i j) as [v|] eqn:Hitem; simpl; [|done].
  apply item_elem in Hitem as (row & Hrow & Hv).
  apply elem_of_replicate in Hrow as [-> _].
  by apply elem_of_replicate in Hv as [-> _].
Qed.

(** ** The reference rule *)

Lemma has_shape_advance_reference (rows cols : Z) (g : ndarray) :
  0 ≤ rows → (0 < rows → 0 ≤ cols) →
  has_shape (advance_reference rows cols g) rows cols.
Proof.
  intros Hr Hc. unfold advance_reference, range. split.
  - rewrite length_fmap, length_seqZ. lia.
  - apply Forall_fmap, list.Forall_forall. intros i Hi. simpl.
    apply elem_of_seqZ in Hi. rewrite length_fmap, length_seqZ. lia.
Qed.

Lemma cell_advance_reference (rows cols : Z) (g : ndarray) (i j : Z) :
  0 ≤ i < rows → 0 ≤ j < cols →
  cell (advance_reference rows cols g) i j
  = conway_rule (cell g i j) (count rows cols g i j).
Proof.
  intros Hi Hj. unfold cell at 1. unfold item, advance_reference, range.
  rewrite length_fmap, length_seqZ, norm_index_in by lia. simpl.
  rewrite list_lookup_fmap, lookup_seqZ_lt by lia. simpl.
  rewrite length_fmap, length_seqZ, norm_index_in by lia. simpl.
  rewrite list_lookup_fmap, lookup_seqZ_lt by lia. simpl.
  by rewrite !Z2Nat.id by lia.
Qed.

(** ** One generation: Conway's rule, read from the current generation *)

(** C1.  [update] applies exactly Conway's rule.  For a store [h] holding
    the current generation [g] at [grid], [update] returns a reference to a
    grid [g'] such that, for every cell [(i, j)], the neighbour sum the code
    computes in [h] is the sum over [g] itself, and: an ALIVE cell with fewer
    than 2 or more than 3 live neighbours is DEAD in [g'], an ALIVE cell
    with 2 or 3 is ALIVE, a DEAD cell with exactly 3 is ALIVE, a DEAD cell
    with any other sum is DEAD.  A cell that is ALIVE or DEAD has no other
    next state than the one of the four-case rule. *)
Theorem update_applies_conway_rule (rows cols : Z) (h : heap) (frame : Z)
    (grid : nat) (g : ndarray) :
  h !! grid = Some g → has_shape g rows cols →
  ∃ new_grid g',
    update rows cols frame grid h = Ok new_grid (<[new_grid := g']> h)
    ∧ ∀ i j, 0 ≤ i < rows → 0 ≤ j < cols →
        ∃ n, neighbors rows cols grid i j h = Ok n h
          ∧ n = count rows cols g i j
          ∧ (item g i j = Some 1 → n < 2 ∨ n > 3 → item g' i j = Some 0)
          ∧ (item g i j = Some 1 → n = 2 ∨ n = 3 → item g' i j = Some 1)
          ∧ (item g i j = Some 0 → n = 3 → item g' i j = Some 1)
          ∧ (item g i j = Some 0 → n ≠ 3 → item g' i j = Some 0)
          ∧ (item g i j = Some 0 ∨ item g i j = Some 1 →
             item g' i j = Some (conway_rule (cell g i j) n)).
Proof.
  intros Hgrid Hg.
  exists (fresh (dom h)), (next_gen rows cols g).
  split; [by apply update_run|].
  intros i j Hi Hj. exists (count rows cols g i j).
  split; [apply neighbors_run; (done || lia)|]. split; [done|].
  pose proof (has_shape_next_gen rows cols g Hg) as Hg'.
  rewrite (item_in_range _ rows cols i j Hg' Hi Hj).
  rewrite (item_in_range _ rows cols i j Hg Hi Hj).
  rewrite (cell_next_gen rows cols g i j Hg Hi Hj).
  set (c := cell g i j). set (n := count rows cols g i j).
  unfold rule, conway_rule.
  repeat split; intros Hc; try intros Hn;
    try (destruct Hc as [Hc|Hc]); injection Hc as Hc; rewrite Hc; simpl;
    repeat case_match; try done; lia.
Qed.

Lemma update_applies_conway_rule_witness :
  ∃ new_grid g',
    update 3 3 0 0 {[0%nat := [[0; 1; 0]; [0; 1; 0]; [0; 1; 0]]]}
    = Ok new_grid (<[new_grid := g']> {[0%nat := [[0; 1; 0]; [0; 1; 0]; [0; 1; 0]]]})
    ∧ ∀ i j, 0 ≤ i < 3 → 0 ≤ j < 3 →
        ∃ n, neighbors 3 3 0 i j {[0%nat := [[0; 1; 0]; [0; 1; 0]; [0; 1; 0]]]}
             = Ok n {[0%nat := [[0; 1; 0]; [0; 1; 0]; [0; 1; 0]]]}
          ∧ n = count 3 3 [[0; 1; 0]; [0; 1; 0]; [0; 1; 0]] i j
          ∧ (item [[0; 1; 0]; [0; 1; 0]; [0; 1; 0]] i j = Some 1 →
             n < 2 ∨ n > 3 → item g' i j = Some 0)
          ∧ (item [[0; 1; 0]; [0; 1; 0]; [0; 1; 0]] i j = Some 1 →
             n = 2 ∨ n = 3 → item g' i j = Some 1)
          ∧ (item [[0; 1; 0]; [0; 1; 0]; [0; 1; 0]] i j = Some 0 →
             n = 3 → item g' i j = Some 1)
          ∧ (item [[0; 1; 0]; [0; 1; 0]; [0; 1; 0]] i j = Some 0 →
             n ≠ 3 → item g' i j = Some 0)
          ∧ (item [[0; 1; 0]; [0; 1; 0]; [0; 1; 0]] i j = Some 0
             ∨ item [[0; 1; 0]; [0; 1; 0]; [0; 1; 0]] i j = Some 1 →
             item g' i j
             = Some (conway_rule (cell [[0; 1; 0]; [0; 1; 0]; [0; 1; 0]] i j) n)).
Proof.
  apply (update_applies_conway_rule 3 3 _ 0 0%nat [[0; 1; 0]; [0; 1; 0]; [0; 1; 0]]).
  - reflexivity.
  - literal_grid.
Defined.

(** ** The input of [update] is left alone *)

(** C2.  [update] does not mutate its input.  The grid at [grid] is the same,
    cell for cell, after the call; the result is a reference that designated
    nothing before the call (a newly allocated grid, different from [grid]),
    and no other array of the store is changed. *)
Theorem update_leaves_input_unchanged (rows cols : Z) (h : heap) (frame : Z)
    (grid : nat) (g : ndarray) :
  h !! grid = Some g → has_shape g rows cols →
  ∃ new_grid h',
    update rows cols frame grid h = Ok new_grid h'
    ∧ h !! new_grid = None
    ∧ new_grid ≠ grid
    ∧ h' !! grid = Some g
    ∧ is_Some (h' !! new_grid)
    ∧ ∀ a, a ≠ new_grid → h' !! a = h !! a.
Proof.
  intros Hgrid Hg.
  exists (fresh (dom h)), (<[fresh (dom h) := next_gen rows cols g]> h).
  pose proof (fresh_unused h) as Hfresh.
  assert (fresh (dom h) ≠ grid) as Hne by (intros Heq; rewrite Heq in Hfresh; congruence).
  split; [by apply update_run|].
  split; [done|]. split; [done|].
  split; [by rewrite lookup_insert_ne|].
  split; [rewrite lookup_insert_eq; eauto|].
  intros a Ha. by rewrite lookup_insert_ne.
Qed.

Lemma update_leaves_input_unchanged_witness :
  ∃ new_grid h',
    update 2 2 0 0 {[0%nat := [[1; 1]; [0; 1]]]} = Ok new_grid h'
    ∧ ({[0%nat := [[1; 1]; [0; 1]]]} : heap) !! new_grid = None
    ∧ new_grid ≠ 0%nat
    ∧ h' !! 0%nat = Some [[1; 1]; [0; 1]]
    ∧ is_Some (h' !! new_grid)
    ∧ ∀ a, a ≠ new_grid → h' !! a = ({[0%nat := [[1; 1]; [0; 1]]]} : heap) !! a.
Proof.
  apply (update_leaves_input_unchanged 2 2 _ 0 0%nat [[1; 1]; [0; 1]]).
  - reflexivity.
  - literal_grid.
Defined.

(** ** The neighbour sum *)

Lemma mod_same (n i : Z) : 0 ≤ i < n → (i + 0) `mod` n = i.
Proof. intros Hi. rewrite Z.add_0_r. by apply Z.mod_small. Qed.

Lemma mod_pred (n i : Z) :
  0 ≤ i < n → (i + -1) `mod` n = if i =? 0 then n - 1 else i - 1.
Proof.
  intros Hi. destruct (Z.eqb_spec i 0) as [->|Hne].
  - symmetry. apply (Z.mod_unique _ _ (-1)); lia.
  - apply Z.mod_small. lia.
Qed.

Lemma mod_succ (n i : Z) :
  0 ≤ i < n → (i + 1) `mod` n = if i =? n - 1 then 0 else i + 1.
Proof.
  intros Hi. destruct (Z.eqb_spec i (n - 1)) as [->|Hne].
  - symmetry. apply (Z.mod_unique _ _ 1); lia.
  - apply Z.mod_small. lia.
Qed.

Lemma offsets_eq :
  offsets = [(-1, -1); (-1, 0); (-1, 1); (0, -1); (0, 1); (1, -1); (1, 0); (1, 1)].
Proof. reflexivity. Qed.

(** The eight positions read around an in-range cell, with the wrap-around
    written out. *)
Lemma neighbor_cells_wrap (rows cols i j : Z) :
  0 ≤ i < rows → 0 ≤ j < cols →
  neighbor_cells rows cols i j
  = let up := if i =? 0 then rows - 1 else i - 1 in
    let down := if i =? rows - 1 then 0 else i + 1 in
    let left := if j =? 0 then cols - 1 else j - 1 in
    let right := if j =? cols - 1 then 0 else j + 1 in
    [(up, left); (up, j); (up, right);
     (i, left); (i, right);
     (down, left); (down, j); (down, right)].
Proof.
  intros Hi Hj. unfold neighbor_cells. rewrite offsets_eq. cbn.
  by rewrite !mod_same, !mod_pred, !mod_succ by done.
Qed.

Lemma neighbor_cells_self (rows cols i j : Z) :
  0 ≤ i < rows → 0 ≤ j < cols →
  (i, j) ∈ neighbor_cells rows cols i j ↔ rows = 1 ∨ cols = 1.
Proof.
  intros Hi Hj. rewrite neighbor_cells_wrap by done. cbn zeta.
  rewrite list_elem_of_In.
  destruct (Z.eqb_spec i 0), (Z.eqb_spec i (rows - 1)),
    (Z.eqb_spec j 0), (Z.eqb_spec j (cols - 1)); simpl;
    (split;
     [ intros H; repeat (destruct H as [H|H]); try done; injection H; intros; lia
     | intros [?|?];
       [ right; left; f_equal; lia | do 3 right; left; f_equal; lia ] ]).
Qed.




(** ** Creating the grid *)




(** ** Seeding *)

(** C5.  Seeding never raises: for every list of pairs, [seed] returns and
    changes only the grid it is given, whose dimensions it keeps.  In the
    seeded grid an in-range cell is ALIVE when its pair is in the list and
    keeps the value it had otherwise; a list with only out-of-range pairs
    leaves the grid as it was. *)
Theorem seed_sets_in_range_cells (rows cols : Z) (h : heap) (grid : nat)
    (g : ndarray) (cells : list (Z * Z)) :
  h !! grid = Some g → has_shape g rows cols →
  ∃ g',
    seed rows cols grid cells h = Ok tt (<[grid := g']> h)
    ∧ has_shape g' rows cols
    ∧ (∀ i j, 0 ≤ i < rows → 0 ≤ j < cols →
         item g' i j = if decide ((i, j) ∈ cells) then Some 1 else item g i j)
    ∧ ((∀ i j, (i, j) ∈ cells → ¬ (0 ≤ i < rows ∧ 0 ≤ j < cols)) → g' = g).
Proof.
  intros Hgrid Hg. exists (seeded rows cols g cells).
  pose proof (has_shape_seeded rows cols cells g Hg) as Hg'.
  split; [by apply seed_run|]. split; [done|].
  assert (∀ i j, 0 ≤ i < rows → 0 ≤ j < cols →
            cell (seeded rows cols g cells) i j
            = if decide ((i, j) ∈ cells) then 1 else cell g i j) as Hcell
    by (intros i j Hi Hj; by apply cell_seeded).
  split.
  - intros i j Hi Hj.
    rewrite (item_in_range _ rows cols i j Hg' Hi Hj), (Hcell i j Hi Hj).
    rewrite (item_in_range _ rows cols i j Hg Hi Hj).
    by case_decide.
  - intros Hout. apply (grid_ext _ _ rows cols); [done | done |].
    intros i j Hi Hj. rewrite (Hcell i j Hi Hj).
    rewrite decide_False; [done|]. intros Hin. by apply (Hout i j).
Qed.

Lemma seed_sets_in_range_cells_witness :
  ∃ g',
    seed 2 3 0%nat [(-1, 5); (1, 2); (2, 3); (0, 0)] {[0%nat := [[0; 0; 0]; [0; 0; 0]]]}
    = Ok tt (<[0%nat := g']> {[0%nat := [[0; 0; 0]; [0; 0; 0]]]})
    ∧ has_shape g' 2 3
    ∧ (∀ i j, 0 ≤ i < 2 → 0 ≤ j < 3 →
         item g' i j
         = if decide ((i, j) ∈ [(-1, 5); (1, 2); (2, 3); (0, 0)]) then Some 1
           else item [[0; 0; 0]; [0; 0; 0]] i j)
    ∧ ((∀ i j, (i, j) ∈ [(-1, 5); (1, 2); (2, 3); (0, 0)] →
               ¬ (0 ≤ i < 2 ∧ 0 ≤ j < 3)) →
       g' = [[0; 0; 0]; [0; 0; 0]]).
Proof.
  apply (seed_sets_in_range_cells 2 3 _ 0%nat [[0; 0; 0]; [0; 0; 0]]).
  - reflexivity.
  - literal_grid.
Defined.

(** ** Wrap-around *)

(** C6.  On a grid of [rows] rows and [cols] columns, the cell [(0, 0)] is
    one of the positions read around each of [(rows-1, cols-1)],
    [(rows-1, 0)] and [(0, cols-1)]; when it is ALIVE, the neighbour sum of
    each of these three cells counts it: the sum is at least 1. *)
Theorem toroidal_wraparound (rows cols : Z) (h : heap) (grid : nat) (g : ndarray) :
  0 < rows → 0 < cols →
  h !! grid = Some g → has_shape g rows cols → binary g →
  item g 0 0 = Some 1 →
  ((0, 0) ∈ neighbor_cells rows cols (rows - 1) (cols - 1)
   ∧ (0, 0) ∈ neighbor_cells rows cols (rows - 1) 0
   ∧ (0, 0) ∈ neighbor_cells rows cols 0 (cols - 1))
  ∧ ∃ n1 n2 n3,
      neighbors rows cols grid (rows - 1) (cols - 1) h = Ok n1 h
      ∧ neighbors rows cols grid (rows - 1) 0 h = Ok n2 h
      ∧ neighbors rows cols grid 0 (cols - 1) h = Ok n3 h
      ∧ 1 ≤ n1 ∧ 1 ≤ n2 ∧ 1 ≤ n3.
Proof.
  intros Hr Hc Hgrid Hg Hbin Horigin.
  assert ((0, 0) ∈ neighbor_cells rows cols (rows - 1) (cols - 1)
          ∧ (0, 0) ∈ neighbor_cells rows cols (rows - 1) 0
          ∧ (0, 0) ∈ neighbor_cells rows cols 0 (cols - 1)) as (H1 & H2 & H3).
  { rewrite !neighbor_cells_wrap by lia. cbn zeta.
    rewrite !Z.eqb_refl. rewrite !list_elem_of_In. simpl.
    split; [do 7 right; left; done|].
    split; [do 6 right; left; done|].
    do 4 right; left; done. }
  split; [done|].
  assert (cell g 0 0 = 1) as Hcell by (unfold cell; by rewrite Horigin).
  assert (∀ i j, (0, 0) ∈ neighbor_cells rows cols i j → 1 ≤ count rows cols g i j)
    as Hcount.
  { intros i j Hin. unfold count. rewrite <-Hcell.
    apply (sumZ_elem (λ '(r, c), cell g r c) _ (0, 0)); [|done].
    intros [r c] _. destruct (cell_binary g r c Hbin); lia. }
  exists (count rows cols g (rows - 1) (cols - 1)),
    (count rows cols g (rows - 1) 0), (count rows cols g 0 (cols - 1)).
  rewrite !(neighbors_run rows cols h grid g) by done.
  repeat split; by apply Hcount.
Qed.

Lemma toroidal_wraparound_witness :
  ((0, 0) ∈ neighbor_cells 3 4 (3 - 1) (4 - 1)
   ∧ (0, 0) ∈ neighbor_cells 3 4 (3 - 1) 0
   ∧ (0, 0) ∈ neighbor_cells 3 4 0 (4 - 1))
  ∧ ∃ n1 n2 n3,
      neighbors 3 4 0%nat (3 - 1) (4 - 1)
        {[0%nat := [[1; 0; 0; 0]; [0; 0; 0; 0]; [0; 0; 0; 0]]]}
      = Ok n1 {[0%nat := [[1; 0; 0; 0]; [0; 0; 0; 0]; [0; 0; 0; 0]]]}
      ∧ neighbors 3 4 0%nat (3 - 1) 0
          {[0%nat := [[1; 0; 0; 0]; [0; 0; 0; 0]; [0; 0; 0; 0]]]}
        = Ok n2 {[0%nat := [[1; 0; 0; 0]; [0; 0; 0; 0]; [0; 0; 0; 0]]]}
      ∧ neighbors 3 4 0%nat 0 (4 - 1)
          {[0%nat := [[1; 0; 0; 0]; [0; 0; 0; 0]; [0; 0; 0; 0]]]}
        = Ok n3 {[0%nat := [[1; 0; 0; 0]; [0; 0; 0; 0]; [0; 0; 0; 0]]]}
      ∧ 1 ≤ n1 ∧ 1 ≤ n2 ∧ 1 ≤ n3.
Proof.
  apply (toroidal_wraparound 3 4 _ 0%nat [[1; 0; 0; 0]; [0; 0; 0; 0]; [0; 0; 0; 0]]).
  - lia.
  - lia.
  - reflexivity.
  - literal_grid.
  - literal_grid.
  - reflexivity.
Defined.

(** ** The blinker *)

Lemma sumZ_ext {A} (f f' : A → Z) (xs : list A) :
  (∀ x, x ∈ xs → f x = f' x) → sumZ f xs = sumZ f' xs.
Proof.
  induction xs as [|x xs IH]; intros Hf; simpl; [done|].
  rewrite (Hf x) by left. rewrite IH; [done|].
  intros y Hy. apply Hf. by right.
Qed.

Lemma count_of_cells (rows cols : Z) (g : ndarray) (f : Z → Z → Z) (i j : Z) :
  0 < rows → 0 < cols →
  (∀ a b, 0 ≤ a < rows → 0 ≤ b < cols → cell g a b = f a b) →
  count rows cols g i j = sumZ (λ '(a, b), f a b) (neighbor_cells rows cols i j).
Proof.
  intros Hr Hc Hcells. unfold count. apply sumZ_ext.
  intros [a b] Hin. apply neighbor_cells_in_range in Hin as [Ha Hb]; [|done|done].
  by apply Hcells.
Qed.

Lemma horizontal_step (rows cols r c i j : Z) :
  4 ≤ rows → 4 ≤ cols →
  0 ≤ r < rows → 1 ≤ c ≤ cols - 2 → 0 ≤ i < rows → 0 ≤ j < cols →
  rule (horizontal r c i j)
       (sumZ (λ '(a, b), horizontal r c a b) (neighbor_cells rows cols i j))
       (horizontal r c i j)
  = vertical rows r c i j.
Proof.
  intros Hrows Hcols Hr Hc Hi Hj. rewrite neighbor_cells_wrap by done.
  cbn zeta. cbn [sumZ]. unfold horizontal, vertical.
  rewrite mod_pred, mod_succ by done.
  destruct (Z.eqb_spec i 0), (Z.eqb_spec i (rows - 1)),
    (Z.eqb_spec j 0), (Z.eqb_spec j (cols - 1)),
    (Z.eqb_spec r 0), (Z.eqb_spec r (rows - 1));
    try lia; settle_tests; reflexivity.
Qed.

Lemma vertical_step (rows cols r c i j : Z) :
  4 ≤ rows → 4 ≤ cols →
  0 ≤ r < rows → 1 ≤ c ≤ cols - 2 → 0 ≤ i < rows → 0 ≤ j < cols →
  rule (vertical rows r c i j)
       (sumZ (λ '(a, b), vertical rows r c a b) (neighbor_cells rows cols i j))
       (vertical rows r c i j)
  = horizontal r c i j.
Proof.
  intros Hrows Hcols Hr Hc Hi Hj. rewrite neighbor_cells_wrap by done.
  cbn zeta. cbn [sumZ]. unfold horizontal, vertical.
  rewrite mod_pred, mod_succ by done.
  destruct (Z.eqb_spec i 0), (Z.eqb_spec i (rows - 1)),
    (Z.eqb_spec j 0), (Z.eqb_spec j (cols - 1)),
    (Z.eqb_spec r 0), (Z.eqb_spec r (rows - 1));
    try lia; settle_tests; reflexivity.
Qed.

Lemma run_simulation_run (rows cols : Z) (cells : list (Z * Z)) (h : heap) :
  0 ≤ rows → 0 ≤ cols →
  run_simulation rows cols cells h
  = Ok (fresh (dom h))
       (<[fresh (dom h) :=
            seeded rows cols (replicate (Z.to_nat rows) (replicate (Z.to_nat cols) 0))
              cells]> h).
Proof.
  intros Hr Hc. unfold run_simulation, bind, create, np_zeros.
  rewrite (proj2 (Z.ltb_ge rows 0)), (proj2 (Z.ltb_ge cols 0)) by lia. simpl.
  rewrite (seed_run rows cols _ _ (replicate (Z.to_nat rows) (replicate (Z.to_nat cols) 0)));
    [|by rewrite lookup_insert_eq|by apply has_shape_zeros].
  unfold ret. by rewrite insert_insert_eq.
Qed.

Lemma cell_blinker (rows cols r c i j : Z) :
  0 ≤ r < rows → 1 ≤ c ≤ cols - 2 → 0 ≤ i < rows → 0 ≤ j < cols →
  cell (seeded rows cols (replicate (Z.to_nat rows) (replicate (Z.to_nat cols) 0))
          (blinker r c)) i j
  = horizontal r c i j.
Proof.
  intros Hr Hc Hi Hj.
  rewrite cell_seeded by (done || apply has_shape_zeros; lia).
  rewrite cell_zeros. unfold horizontal, blinker.
  case_decide as Hin.
  - rewrite list_elem_of_In in Hin. simpl in Hin.
    destruct Hin as [Heq | [Heq | [Heq | Hin] ] ]; [..|done]; injection Heq as Hr' Hc';
      settle_tests; reflexivity.
  - destruct (Z.eqb_spec i r) as [->|]; [|done].
    destruct (Z.leb_spec (c - 1) j); [|done].
    destruct (Z.leb_spec j (c + 1)); [|done].
    exfalso. apply Hin. rewrite list_elem_of_In. simpl.
    assert (j = c - 1 ∨ j = c ∨ j = c + 1) as [-> | [-> | ->] ] by lia; auto.
Qed.

(** C7.  The blinker has period 2.  On a grid of at least 4 rows and 4
    columns, [run_simulation] with the horizontal triple [(r, c-1)], [(r, c)],
    [(r, c+1)], all three in range, yields a grid whose live cells are
    exactly that triple; the first [update] turns it into the vertical
    triple, and the second [update] yields a grid equal to the seeded one. *)
Theorem blinker_period_two (rows cols r c f1 f2 : Z) (h : heap) :
  4 ≤ rows → 4 ≤ cols → 0 ≤ r < rows → 1 ≤ c ≤ cols - 2 →
  ∃ grid h0 g grid1 h1 g1 grid2 h2,
    run_simulation rows cols (blinker r c) h = Ok grid h0
    ∧ h0 !! grid = Some g
    ∧ (∀ i j, 0 ≤ i < rows → 0 ≤ j < cols → item g i j = Some (horizontal r c i j))
    ∧ update rows cols f1 grid h0 = Ok grid1 h1
    ∧ h1 !! grid1 = Some g1
    ∧ (∀ i j, 0 ≤ i < rows → 0 ≤ j < cols →
         item g1 i j = Some (vertical rows r c i j))
    ∧ animate rows cols [f1; f2] grid h0 = Ok grid2 h2
    ∧ h2 !! grid2 = Some g.
Proof.
  intros Hrows Hcols Hr Hc.
  set (g := seeded rows cols (replicate (Z.to_nat rows) (replicate (Z.to_nat cols) 0))
              (blinker r c)).
  set (grid := fresh (dom h)). set (h0 := <[grid := g]> h).
  set (g1 := next_gen rows cols g).
  set (grid1 := fresh (dom h0)). set (h1 := <[grid1 := g1]> h0).
  set (g2 := next_gen rows cols g1).
  set (grid2 := fresh (dom h1)). set (h2 := <[grid2 := g2]> h1).
  assert (has_shape g rows cols) as Hg
    by (apply has_shape_seeded, has_shape_zeros; lia).
  assert (has_shape g1 rows cols) as Hg1 by by apply has_shape_next_gen.
  assert (has_shape g2 rows cols) as Hg2 by by apply has_shape_next_gen.
  assert (∀ i j, 0 ≤ i < rows → 0 ≤ j < cols → cell g i j = horizontal r c i j)
    as Hcell by (intros i j Hi Hj; by apply cell_blinker).
  assert (∀ i j, 0 ≤ i < rows → 0 ≤ j < cols → cell g1 i j = vertical rows r c i j)
    as Hcell1.
  { intros i j Hi Hj. unfold g1. rewrite cell_next_gen by done.
    rewrite (count_of_cells rows cols g (horizontal r c)), Hcell by (done || lia).
    by apply (horizontal_step rows cols). }
  assert (g2 = g) as Hperiod.
  { apply (grid_ext _ _ rows cols); [done | done |].
    intros i j Hi Hj. unfold g2. rewrite cell_next_gen by done.
    rewrite (count_of_cells rows cols g1 (vertical rows r c)), Hcell1, Hcell
      by (done || lia).
    by apply (vertical_step rows cols). }
  assert (h0 !! grid = Some g) as Hgrid by apply lookup_insert_eq.
  assert (h1 !! grid1 = Some g1) as Hgrid1 by apply lookup_insert_eq.
  assert (update rows cols f1 grid h0 = Ok grid1 h1) as Hup1
    by by apply update_run.
  assert (update rows cols f2 grid1 h1 = Ok grid2 h2) as Hup2
    by by apply update_run.
  exists grid, h0, g, grid1, h1, g1, grid2, h2.
  split; [apply run_simulation_run; lia|].
  split; [done|].
  split; [intros i j Hi Hj; by rewrite (item_in_range g rows cols), Hcell|].
  split; [done|]. split; [done|].
  split; [intros i j Hi Hj; by rewrite (item_in_range g1 rows cols), Hcell1|].
  split.
  - cbn [animate]. unfold bind. rewrite Hup1, Hup2. done.
  - unfold h2. rewrite lookup_insert_eq. by rewrite Hperiod.
Qed.

Lemma pattern_Blinker : pattern "Oscillators" "Blinker" = Some (blinker 30 30).
Proof. reflexivity. Qed.

(** With fewer than 4 rows the vertical triple fills its column of the torus
    and nothing dies: on a 3×5 grid the blinker does not come back. *)
Lemma blinker_three_rows :
  ∃ grid h2,
    (let* grid := run_simulation 3 5 (blinker 1 2) in animate 3 5 [0; 1] grid) ∅
    = Ok grid h2
    ∧ h2 !! 0%nat = Some [[0; 0; 0; 0; 0]; [0; 1; 1; 1; 0]; [0; 0; 0; 0; 0]]
    ∧ h2 !! grid ≠ h2 !! 0%nat.
Proof. eexists _, _. split; [reflexivity|]. split; [reflexivity|]. discriminate. Qed.

(** The application's own blinker, on its 60×60 grid. *)
Lemma blinker_period_two_witness :
  ∃ grid h0 g grid1 h1 g1 grid2 h2,
    run_simulation GRID_ROWS GRID_COLS Blinker ∅ = Ok grid h0
    ∧ h0 !! grid = Some g
    ∧ (∀ i j, 0 ≤ i < GRID_ROWS → 0 ≤ j < GRID_COLS →
         item g i j = Some (horizontal 30 30 i j))
    ∧ update GRID_ROWS GRID_COLS 0 grid h0 = Ok grid1 h1
    ∧ h1 !! grid1 = Some g1
    ∧ (∀ i j, 0 ≤ i < GRID_ROWS → 0 ≤ j < GRID_COLS →
         item g1 i j = Some (vertical GRID_ROWS 30 30 i j))
    ∧ animate GRID_ROWS GRID_COLS [0; 1] grid h0 = Ok grid2 h2
    ∧ h2 !! grid2 = Some g.
Proof.
  apply (blinker_period_two GRID_ROWS GRID_COLS 30 30 0 1 ∅);
    unfold GRID_ROWS, GRID_COLS; lia.
Defined.

(** ** Reachable grids *)

Lemma has_shape_nonneg (g : ndarray) (rows cols : Z) :
  has_shape g rows cols → 0 ≤ rows ∧ (0 < rows → 0 ≤ cols).
Proof.
  intros [Hlen Hrows]. split; [lia|]. intros Hpos.
  destruct g as [|row g]; simpl in Hlen; [lia|].
  apply Forall_cons_1 in Hrows as [Hrow _]. lia.
Qed.

Lemma reachable_grid (rows cols : Z) (h : heap) (grid : nat) :
  reachable rows cols h grid →
  ∃ g, h !! grid = Some g ∧ has_shape g rows cols ∧ binary g.
Proof.
  induction 1 as [h grid h' Hcreate
                 |h grid cells h' _ (g & Hgrid & Hg & Hbin) Hseed
                 |h grid frame grid' h' _ (g & Hgrid & Hg & Hbin) Hupdate].
  - unfold create, np_zeros in Hcreate.
    destruct (Z.ltb_spec rows 0), (Z.ltb_spec cols 0); simpl in Hcreate; try done.
    injection Hcreate as <- <-.
    exists (replicate (Z.to_nat rows) (replicate (Z.to_nat cols) 0)).
    split; [apply lookup_insert_eq|].
    split; [by apply has_shape_zeros | apply binary_zeros].
  - rewrite (seed_run rows cols h grid g cells Hgrid Hg) in Hseed.
    injection Hseed as <-.
    exists (seeded rows cols g cells).
    split; [apply lookup_insert_eq|].
    split; [by apply has_shape_seeded | by apply binary_seeded].
  - rewrite (update_run rows cols h frame grid g Hgrid Hg) in Hupdate.
    injection Hupdate as <- <-.
    exists (next_gen rows cols g).
    split; [apply lookup_insert_eq|].
    split; [by apply has_shape_next_gen | by apply binary_next_gen].
Qed.

(** C8.  Dimensions never change.  [update] returns a grid with the row
    count and the column count of its input; [seed] keeps the dimensions of
    the grid it writes; and every grid reached from a created grid by any
    sequence of seedings and updates has [rows] rows of [cols] cells. *)
Theorem dimensions_never_change (rows cols : Z) :
  (∀ h frame grid g,
     h !! grid = Some g → has_shape g rows cols →
     ∃ new_grid g',
       update rows cols frame grid h = Ok new_grid (<[new_grid := g']> h)
       ∧ has_shape g' rows cols
       ∧ length g' = length g
       ∧ (∀ r row row', g !! r = Some row → g' !! r = Some row' →
            length row' = length row))
  ∧ (∀ h grid g cells,
       h !! grid = Some g → has_shape g rows cols →
       ∃ g',
         seed rows cols grid cells h = Ok tt (<[grid := g']> h)
         ∧ has_shape g' rows cols)
  ∧ (∀ h grid,
       reachable rows cols h grid →
       ∃ g, h !! grid = Some g ∧ has_shape g rows cols).
Proof.
  split; [|split].
  - intros h frame grid g Hgrid Hg.
    exists (fresh (dom h)), (next_gen rows cols g).
    pose proof (has_shape_next_gen rows cols g Hg) as Hg'.
    split; [by apply update_run|]. split; [done|].
    split; [destruct Hg, Hg'; lia|].
    intros r row row' Hrow Hrow'.
    pose proof (has_shape_row _ _ _ _ _ Hg Hrow).
    pose proof (has_shape_row _ _ _ _ _ Hg' Hrow'). lia.
  - intros h grid g cells Hgrid Hg.
    exists (seeded rows cols g cells).
    split; [by apply seed_run | by apply has_shape_seeded].
  - intros h grid Hreach.
    destruct (reachable_grid rows cols h grid Hreach) as (g & Hgrid & Hg & _).
    by exists g.
Qed.

Lemma dimensions_never_change_witness :
  (∃ new_grid g',
     update 2 3 0 0%nat {[0%nat := [[0; 1; 1]; [0; 1; 0]]]}
     = Ok new_grid (<[new_grid := g']> {[0%nat := [[0; 1; 1]; [0; 1; 0]]]})
     ∧ has_shape g' 2 3
     ∧ length g' = length [[0; 1; 1]; [0; 1; 0]]
     ∧ (∀ r row row', [[0; 1; 1]; [0; 1; 0]] !! r = Some row → g' !! r = Some row' →
          length row' = length row))
  ∧ (∃ g',
       seed 2 3 0%nat [(1, 1); (7, 7)] {[0%nat := [[0; 1; 1]; [0; 1; 0]]]}
       = Ok tt (<[0%nat := g']> {[0%nat := [[0; 1; 1]; [0; 1; 0]]]})
       ∧ has_shape g' 2 3)
  ∧ (∃ g, ({[0%nat := [[0; 0; 0]; [0; 0; 0]]]} : heap) !! 0%nat = Some g
          ∧ has_shape g 2 3).
Proof.
  destruct (dimensions_never_change 2 3) as (Hupdate & Hseed & Hreach).
  split; [|split].
  - apply (Hupdate _ 0 0%nat [[0; 1; 1]; [0; 1; 0]]); [reflexivity | literal_grid].
  - apply (Hseed _ 0%nat [[0; 1; 1]; [0; 1; 0]]); [reflexivity | literal_grid].
  - apply Hreach. by apply (reach_create 2 3 ∅).
Defined.

(** ** The copy and the reference rule *)

(** C9.  Copy-then-modify agrees with the four-case reference rule.  On a
    grid of 0 and 1, the grid [update] returns is the one the reference rule
    builds cell by cell from scratch; a cell in one of the two cases the
    code does not list (ALIVE with 2 or 3 live neighbours, DEAD with a sum
    other than 3) has the value it had in the input. *)
Theorem update_refines_reference (rows cols : Z) (h : heap) (frame : Z)
    (grid : nat) (g : ndarray) :
  h !! grid = Some g → has_shape g rows cols → binary g →
  ∃ new_grid g',
    update rows cols frame grid h = Ok new_grid (<[new_grid := g']> h)
    ∧ g' = advance_reference rows cols g
    ∧ ∀ i j, 0 ≤ i < rows → 0 ≤ j < cols →
        (item g i j = Some 1 ∧ (count rows cols g i j = 2 ∨ count rows cols g i j = 3))
        ∨ (item g i j = Some 0 ∧ count rows cols g i j ≠ 3) →
        item g' i j = item g i j.
Proof.
  intros Hgrid Hg Hbin.
  exists (fresh (dom h)), (next_gen rows cols g).
  pose proof (has_shape_next_gen rows cols g Hg) as Hg'.
  split; [by apply update_run|]. split.
  - apply (grid_ext _ _ rows cols); [done| |].
    + destruct (has_shape_nonneg g rows cols Hg).
      by apply has_shape_advance_reference.
    + intros i j Hi Hj.
      rewrite cell_next_gen, cell_advance_reference by done.
      apply rule_conway. by apply cell_binary.
  - intros i j Hi Hj Hcase.
    rewrite (item_in_range _ rows cols i j Hg' Hi Hj).
    rewrite (item_in_range _ rows cols i j Hg Hi Hj) in *.
    rewrite cell_next_gen by done. f_equal. unfold rule.
    destruct Hcase as [[Hc Hn]|[Hc Hn]]; injection Hc as ->; simpl;
      settle_tests; reflexivity.
Qed.

Lemma update_refines_reference_witness :
  ∃ new_grid g',
    update 3 3 0 0%nat {[0%nat := [[0; 1; 0]; [1; 1; 0]; [0; 0; 0]]]}
    = Ok new_grid (<[new_grid := g']> {[0%nat := [[0; 1; 0]; [1; 1; 0]; [0; 0; 0]]]})
    ∧ g' = advance_reference 3 3 [[0; 1; 0]; [1; 1; 0]; [0; 0; 0]]
    ∧ ∀ i j, 0 ≤ i < 3 → 0 ≤ j < 3 →
        (item [[0; 1; 0]; [1; 1; 0]; [0; 0; 0]] i j = Some 1
         ∧ (count 3 3 [[0; 1; 0]; [1; 1; 0]; [0; 0; 0]] i j = 2
            ∨ count 3 3 [[0; 1; 0]; [1; 1; 0]; [0; 0; 0]] i j = 3))
        ∨ (item [[0; 1; 0]; [1; 1; 0]; [0; 0; 0]] i j = Some 0
           ∧ count 3 3 [[0; 1; 0]; [1; 1; 0]; [0; 0; 0]] i j ≠ 3) →
        item g' i j = item [[0; 1; 0]; [1; 1; 0]; [0; 0; 0]] i j.
Proof.
  apply (update_refines_reference 3 3 _ 0 0%nat [[0; 1; 0]; [1; 1; 0]; [0; 0; 0]]).
  - reflexivity.
  - literal_grid.
  - literal_grid.
Defined.

(** ** Cell values *)

(** C10.  Every cell of every reachable grid is 0 or 1.  A grid reached
    from a created grid by any sequence of seedings and updates holds only
    0 and 1, so every in-range cell reads as 0 or 1, and the neighbour sum
    of every cell is an integer between 0 and 8. *)
Theorem reachable_cells_are_binary (rows cols : Z) (h : heap) (grid : nat) :
  reachable rows cols h grid →
  ∃ g, h !! grid = Some g
       ∧ binary g
       ∧ (∀ i j, 0 ≤ i < rows → 0 ≤ j < cols →
            item g i j = Some 0 ∨ item g i j = Some 1)
       ∧ (∀ i j, 0 ≤ i < rows → 0 ≤ j < cols →
            ∃ n, neighbors rows cols grid i j h = Ok n h ∧ 0 ≤ n ≤ 8).
Proof.
  intros Hreach.
  destruct (reachable_grid rows cols h grid Hreach) as (g & Hgrid & Hg & Hbin).
  exists g. split; [done|]. split; [done|]. split.
  - intros i j Hi Hj. rewrite (item_in_range g rows cols i j Hg Hi Hj).
    destruct (cell_binary g i j Hbin) as [-> | ->]; auto.
  - intros i j Hi Hj. exists (count rows cols g i j).
    split; [apply neighbors_run; (done || lia) | by apply count_bounds].
Qed.

Lemma reachable_cells_are_binary_witness :
  reachable 3 3
    (<[1%nat := [[1; 1; 1]; [1; 1; 1]; [1; 1; 1]]]>
       {[0%nat := [[0; 0; 0]; [1; 1; 1]; [0; 0; 0]]]}) 1%nat
  ∧ ∃ g, (<[1%nat := [[1; 1; 1]; [1; 1; 1]; [1; 1; 1]]]>
            {[0%nat := [[0; 0; 0]; [1; 1; 1]; [0; 0; 0]]]} : heap) !! 1%nat = Some g
       ∧ binary g
       ∧ (∀ i j, 0 ≤ i < 3 → 0 ≤ j < 3 →
            item g i j = Some 0 ∨ item g i j = Some 1)
       ∧ (∀ i j, 0 ≤ i < 3 → 0 ≤ j < 3 →
            ∃ n, neighbors 3 3 1%nat i j
                   (<[1%nat := [[1; 1; 1]; [1; 1; 1]; [1; 1; 1]]]>
                      {[0%nat := [[0; 0; 0]; [1; 1; 1]; [0; 0; 0]]]})
                 = Ok n (<[1%nat := [[1; 1; 1]; [1; 1; 1]; [1; 1; 1]]]>
                           {[0%nat := [[0; 0; 0]; [1; 1; 1]; [0; 0; 0]]]})
                 ∧ 0 ≤ n ≤ 8).
Proof.
  assert (reachable 3 3
            (<[1%nat := [[1; 1; 1]; [1; 1; 1]; [1; 1; 1]]]>
               {[0%nat := [[0; 0; 0]; [1; 1; 1]; [0; 0; 0]]]}) 1%nat) as Hreach.
  { apply (reach_update 3 3 {[0%nat := [[0; 0; 0]; [1; 1; 1]; [0; 0; 0]]]} 0%nat 0);
      [|reflexivity].
    apply (reach_seed 3 3 {[0%nat := [[0; 0; 0]; [0; 0; 0]; [0; 0; 0]]]} 0%nat
             [(1, 0); (1, 1); (5, 5); (1, 2)]); [|reflexivity].
    apply (reach_create 3 3 ∅). reflexivity. }
  split; [exact Hreach|].
  exact (reachable_cells_are_binary 3 3 _ 1%nat Hreach).
Defined.

(** * Further properties of the simulation *)

(** ** The start grid of [run_simulation] *)

Lemma has_shape_place (rows cols : Z) (cells : list (Z * Z)) :
  0 ≤ rows → 0 ≤ cols → has_shape (seeded rows cols (blank rows cols) cells) rows cols.
Proof. intros Hr Hc. by apply has_shape_seeded, has_shape_zeros. Qed.



Lemma run_simulation_negative (rows cols : Z) (cells : list (Z * Z)) (h : heap) :
  rows < 0 ∨ cols < 0 → run_simulation rows cols cells h = Raise ValueError.
Proof.
  intros Hneg. unfold run_simulation, bind, create, np_zeros.
  destruct (Z.ltb_spec rows 0), (Z.ltb_spec cols 0); simpl; try done; lia.
Qed.

(** ** Seeding depends on the set of cells only *)

Lemma for_app {A} (xs ys : list A) (body : A → M unit) (h : heap) :
  for_ (xs ++ ys) body h = (for_ xs body ;; for_ ys body) h.
Proof.
  revert h. induction xs as [|x xs IH]; intros h; simpl.
  - unfold bind, ret. done.
  - unfold bind. destruct (body x h) as [[] h1|e]; [|done]. apply IH.
Qed.

(** Two lists of pairs with the same in-range members seed the same grid,
    whatever their order, their repetitions and their out-of-range pairs;
    and seeding one list after another is seeding their concatenation. *)
Theorem seed_depends_on_cell_set (rows cols : Z) (h : heap) (grid : nat)
    (g : ndarray) (cells cells' : list (Z * Z)) :
  h !! grid = Some g → has_shape g rows cols →
  (∀ i j, 0 ≤ i < rows → 0 ≤ j < cols → (i, j) ∈ cells ↔ (i, j) ∈ cells') →
  seed rows cols grid cells h = seed rows cols grid cells' h
  ∧ (seed rows cols grid cells ;; seed rows cols grid cells') h
    = seed rows cols grid (cells ++ cells') h.
Proof.
  intros Hgrid Hg Hsame. split.
  - rewrite !(seed_run rows cols h grid g) by done. do 2 f_equal.
    apply (grid_ext _ _ rows cols); [by apply has_shape_seeded..|].
    intros i j Hi Hj. rewrite !cell_seeded by done.
    specialize (Hsame i j Hi Hj). repeat case_decide; tauto.
  - unfold seed. by rewrite for_app.
Qed.

Lemma seed_depends_on_cell_set_witness :
  seed 2 2 0%nat [(0, 1); (1, 0); (0, 1); (5, 5)] {[0%nat := [[0; 0]; [0; 0]]]}
  = seed 2 2 0%nat [(1, 0); (-3, 0); (0, 1)] {[0%nat := [[0; 0]; [0; 0]]]}
  ∧ (seed 2 2 0%nat [(0, 1); (1, 0); (0, 1); (5, 5)] ;;
     seed 2 2 0%nat [(1, 0); (-3, 0); (0, 1)]) {[0%nat := [[0; 0]; [0; 0]]]}
    = seed 2 2 0%nat ([(0, 1); (1, 0); (0, 1); (5, 5)] ++ [(1, 0); (-3, 0); (0, 1)])
        {[0%nat := [[0; 0]; [0; 0]]]}.
Proof.
  apply (seed_depends_on_cell_set 2 2 _ 0%nat [[0; 0]; [0; 0]]).
  - reflexivity.
  - literal_grid.
  - intros i j Hi Hj. rewrite !list_elem_of_In. simpl.
    split; intros Hin;
      repeat (destruct Hin as [Hin|Hin]; [injection Hin as <- <-; auto 6; lia|]);
      done.
Defined.

(** ** Any number of frames *)

Lemma next_gen_reference (rows cols : Z) (g : ndarray) :
  has_shape g rows cols → binary g →
  next_gen rows cols g = advance_reference rows cols g.
Proof.
  intros Hg Hbin. apply (grid_ext _ _ rows cols).
  - by apply has_shape_next_gen.
  - destruct (has_shape_nonneg g rows cols Hg).
    by apply has_shape_advance_reference.
  - intros i j Hi Hj.
    rewrite cell_next_gen, cell_advance_reference by done.
    apply rule_conway. by apply cell_binary.
Qed.

Lemma iter_next_gen_shape (rows cols : Z) (n : nat) (g : ndarray) :
  has_shape g rows cols → has_shape (Nat.iter n (next_gen rows cols) g) rows cols.
Proof. intros Hg. induction n as [|n IH]; simpl; [done|]. by apply has_shape_next_gen. Qed.

Lemma iter_next_gen_binary (rows cols : Z) (n : nat) (g : ndarray) :
  binary g → binary (Nat.iter n (next_gen rows cols) g).
Proof. intros Hg. induction n as [|n IH]; simpl; [done|]. by apply binary_next_gen. Qed.

Lemma iter_next_gen_reference (rows cols : Z) (n : nat) (g : ndarray) :
  has_shape g rows cols → binary g →
  Nat.iter n (next_gen rows cols) g = Nat.iter n (advance_reference rows cols) g.
Proof.
  intros Hg Hbin. induction n as [|n IH]; simpl; [done|].
  rewrite <-IH. apply next_gen_reference;
    [by apply iter_next_gen_shape | by apply iter_next_gen_binary].
Qed.

Lemma animate_run (rows cols : Z) (frames : list Z) (h : heap) (grid : nat) (g : ndarray) :
  h !! grid = Some g → has_shape g rows cols →
  ∃ grid' h',
    animate rows cols frames grid h = Ok grid' h'
    ∧ h' !! grid' = Some (Nat.iter (length frames) (next_gen rows cols) g)
    ∧ (∀ a x, h !! a = Some x → h' !! a = Some x).
Proof.
  revert h grid g. induction frames as [|frame frames IH]; intros h grid g Hgrid Hg.
  - exists grid, h. by repeat split.
  - cbn [animate]. unfold bind.
    rewrite (update_run rows cols h frame grid g Hgrid Hg).
    destruct (IH (<[fresh (dom h) := next_gen rows cols g]> h) (fresh (dom h))
                (next_gen rows cols g)) as (grid' & h' & Hrun & Hlast & Hkeep);
      [apply lookup_insert_eq | by apply has_shape_next_gen |].
    exists grid', h'. split; [done|]. split.
    + rewrite Hlast. f_equal. cbn [length]. by rewrite Nat.iter_succ_r.
    + intros a x Ha. apply Hkeep. rewrite lookup_insert_ne; [done|].
      intros <-. by rewrite fresh_unused in Ha.
Qed.

(** Calling [update] once per frame never raises on a grid of 0 and 1 of
    the program's dimensions: after [n] frames, whatever their numbers, the
    closure holds the [n]-th generation under the reference rule, and every
    array that existed before, the start grid included, is as it was. *)
Theorem animate_iterates_reference (rows cols : Z) (frames : list Z) (h : heap)
    (grid : nat) (g : ndarray) :
  h !! grid = Some g → has_shape g rows cols → binary g →
  ∃ grid' h',
    animate rows cols frames grid h = Ok grid' h'
    ∧ h' !! grid'
      = Some (Nat.iter (length frames) (advance_reference rows cols) g)
    ∧ (∀ a x, h !! a = Some x → h' !! a = Some x).
Proof.
  intros Hgrid Hg Hbin.
  destruct (animate_run rows cols frames h grid g Hgrid Hg)
    as (grid' & h' & Hrun & Hlast & Hkeep).
  exists grid', h'. split; [done|]. split; [|done].
  by rewrite Hlast, iter_next_gen_reference.
Qed.

Lemma animate_iterates_reference_witness :
  ∃ grid' h',
    animate 3 3 [0; 1; 999; 0] 0%nat {[0%nat := [[0; 1; 0]; [1; 1; 0]; [0; 0; 0]]]}
    = Ok grid' h'
    ∧ h' !! grid'
      = Some (Nat.iter (length [0; 1; 999; 0]) (advance_reference 3 3)
                [[0; 1; 0]; [1; 1; 0]; [0; 0; 0]])
    ∧ (∀ a x, ({[0%nat := [[0; 1; 0]; [1; 1; 0]; [0; 0; 0]]]} : heap) !! a = Some x →
              h' !! a = Some x).
Proof.
  apply (animate_iterates_reference 3 3 _ _ 0%nat [[0; 1; 0]; [1; 1; 0]; [0; 0; 0]]).
  - reflexivity.
  - literal_grid.
  - literal_grid.
Defined.

(** ** The empty pattern *)

Lemma count_blank (rows cols i j : Z) : count rows cols (blank rows cols) i j = 0.
Proof.
  unfold count. induction (neighbor_cells rows cols i j) as [|[r c] l IH]; [done|].
  cbn [sumZ]. unfold blank at 1. rewrite cell_zeros. by rewrite IH.
Qed.

Lemma next_gen_blank (rows cols : Z) :
  0 ≤ rows → 0 ≤ cols → next_gen rows cols (blank rows cols) = blank rows cols.
Proof.
  intros Hr Hc.
  assert (has_shape (blank rows cols) rows cols) as Hb by by apply has_shape_zeros.
  apply (grid_ext _ _ rows cols); [by apply has_shape_next_gen | done |].
  intros i j Hi Hj. rewrite cell_next_gen, count_blank by done.
  unfold blank. by rewrite cell_zeros.
Qed.

Lemma iter_next_gen_blank (rows cols : Z) (n : nat) :
  0 ≤ rows → 0 ≤ cols →
  Nat.iter n (next_gen rows cols) (blank rows cols) = blank rows cols.
Proof.
  intros Hr Hc. induction n as [|n IH]; [done|].
  rewrite Nat.iter_succ, IH. by apply next_gen_blank.
Qed.

(** A pattern that is empty, or has only out-of-range pairs, starts from the
    grid of zeros, and the grid stays all DEAD through any number of
    frames. *)
Theorem blank_grid_stays_blank (rows cols : Z) (cells : list (Z * Z))
    (frames : list Z) (h : heap) :
  0 ≤ rows → 0 ≤ cols →
  (∀ i j, (i, j) ∈ cells → ¬ (0 ≤ i < rows ∧ 0 ≤ j < cols)) →
  ∃ grid h0 grid' h',
    run_simulation rows cols cells h = Ok grid h0
    ∧ h0 !! grid = Some (blank rows cols)
    ∧ animate rows cols frames grid h0 = Ok grid' h'
    ∧ h' !! grid' = Some (blank rows cols).
Proof.
  intros Hr Hc Hout.
  assert (has_shape (blank rows cols) rows cols) as Hb by by apply has_shape_zeros.
  assert (seeded rows cols (blank rows cols) cells = blank rows cols) as Hseed.
  { apply (grid_ext _ _ rows cols); [by apply has_shape_seeded | done |].
    intros i j Hi Hj. rewrite cell_seeded by done.
    rewrite decide_False; [done|]. intros Hin. by apply (Hout i j). }
  destruct (animate_run rows cols frames (<[fresh (dom h) := blank rows cols]> h)
              (fresh (dom h)) (blank rows cols))
    as (grid' & h' & Hrun & Hlast & _); [apply lookup_insert_eq | done |].
  exists (fresh (dom h)), (<[fresh (dom h) := blank rows cols]> h), grid', h'.
  split.
  { rewrite (run_simulation_run rows cols cells h Hr Hc).
    fold (blank rows cols). by rewrite Hseed. }
  split; [apply lookup_insert_eq|]. split; [done|].
  rewrite Hlast. f_equal. by apply iter_next_gen_blank.
Qed.

Lemma blank_grid_stays_blank_witness :
  ∃ grid h0 grid' h',
    run_simulation 4 4 Blinker ∅ = Ok grid h0
    ∧ h0 !! grid = Some (blank 4 4)
    ∧ animate 4 4 [0; 1; 2] grid h0 = Ok grid' h'
    ∧ h' !! grid' = Some (blank 4 4).
Proof.
  apply (blank_grid_stays_blank 4 4 Blinker [0; 1; 2] ∅); [lia | lia |].
  intros i j Hin. rewrite list_elem_of_In in Hin. simpl in Hin.
  destruct Hin as [Hin | [Hin | [Hin | Hin] ] ]; [..|done];
    injection Hin as <- <-; lia.
Defined.

(** ** The torus has no distinguished cell *)

Lemma has_shape_shift (rows cols a b : Z) (g : ndarray) :
  0 ≤ rows → 0 ≤ cols → has_shape (shift rows cols a b g) rows cols.
Proof.
  intros Hr Hc. unfold shift, range. split.
  - rewrite length_fmap, length_seqZ. lia.
  - apply Forall_fmap, list.Forall_forall. intros i Hi. simpl.
    rewrite length_fmap, length_seqZ. lia.
Qed.

Lemma cell_shift (rows cols a b : Z) (g : ndarray) (i j : Z) :
  0 ≤ i < rows → 0 ≤ j < cols →
  cell (shift rows cols a b g) i j = cell g ((i - a) `mod` rows) ((j - b) `mod` cols).
Proof.
  intros Hi Hj. unfold cell at 1. unfold item, shift, range.
  rewrite length_fmap, length_seqZ, norm_index_in by lia. simpl.
  rewrite list_lookup_fmap, lookup_seqZ_lt by lia. simpl.
  rewrite length_fmap, length_seqZ, norm_index_in by lia. simpl.
  rewrite list_lookup_fmap, lookup_seqZ_lt by lia. simpl.
  by rewrite !Z2Nat.id by lia.
Qed.

Lemma mod_shift (n i d a : Z) :
  0 < n → ((i + d) `mod` n - a) `mod` n = ((i - a) `mod` n + d) `mod` n.
Proof.
  intros Hn. rewrite Zminus_mod_idemp_l, Zplus_mod_idemp_l. f_equal. lia.
Qed.

Lemma count_shift (rows cols a b : Z) (g : ndarray) (i j : Z) :
  0 < rows → 0 < cols →
  count rows cols (shift rows cols a b g) i j
  = count rows cols g ((i - a) `mod` rows) ((j - b) `mod` cols).
Proof.
  intros Hr Hc. unfold count, neighbor_cells.
  induction offsets as [|[di dj] l IH]; [done|].
  rewrite !fmap_cons. cbn [sumZ]. rewrite IH. f_equal.
  rewrite cell_shift by (apply Z.mod_pos_bound; lia).
  by rewrite !mod_shift by done.
Qed.

(** [update] commutes with moving the grid around the torus: the next
    generation of a grid moved by [a] rows and [b] columns is the next
    generation of the grid, moved the same way.  A pattern evolves the same
    wherever it lies, across the edges too. *)
Theorem update_commutes_with_shift (rows cols a b : Z) (h h' : heap)
    (frame frame' : Z) (grid grid' : nat) (g : ndarray) :
  0 < rows → 0 < cols →
  h !! grid = Some g → has_shape g rows cols →
  h' !! grid' = Some (shift rows cols a b g) →
  ∃ new g1 new',
    update rows cols frame grid h = Ok new (<[new := g1]> h)
    ∧ update rows cols frame' grid' h'
      = Ok new' (<[new' := shift rows cols a b g1]> h').
Proof.
  intros Hr Hc Hgrid Hg Hgrid'.
  assert (has_shape (shift rows cols a b g) rows cols) as Hs
    by (apply has_shape_shift; lia).
  exists (fresh (dom h)), (next_gen rows cols g), (fresh (dom h')).
  split; [by apply update_run|].
  rewrite (update_run rows cols h' frame' grid' _ Hgrid' Hs). do 2 f_equal.
  apply (grid_ext _ _ rows cols).
  - by apply has_shape_next_gen.
  - apply has_shape_shift; lia.
  - intros i j Hi Hj.
    rewrite cell_next_gen, !cell_shift, count_shift by (done || lia).
    rewrite cell_next_gen; [done | done | |]; apply Z.mod_pos_bound; lia.
Qed.

Lemma update_commutes_with_shift_witness :
  ∃ new g1 new',
    update 3 3 0 0%nat {[0%nat := [[1; 1; 0]; [0; 1; 0]; [0; 0; 0]]]}
    = Ok new (<[new := g1]> {[0%nat := [[1; 1; 0]; [0; 1; 0]; [0; 0; 0]]]})
    ∧ update 3 3 7 5%nat {[5%nat := [[0; 0; 0]; [0; 1; 1]; [0; 0; 1]]]}
      = Ok new' (<[new' := shift 3 3 1 1 g1]> {[5%nat := [[0; 0; 0]; [0; 1; 1]; [0; 0; 1]]]}).
Proof.
  apply (update_commutes_with_shift 3 3 1 1
           {[0%nat := [[1; 1; 0]; [0; 1; 0]; [0; 0; 0]]]}
           {[5%nat := [[0; 0; 0]; [0; 1; 1]; [0; 0; 1]]]}
           0 7 0%nat 5%nat [[1; 1; 0]; [0; 1; 0]; [0; 0; 0]]).
  - lia.
  - lia.
  - reflexivity.
  - literal_grid.
  - reflexivity.
Defined.

(** ** Patterns: still life, oscillator, glider *)

Lemma existsb_place (shape : list (Z * Z)) (r c i j : Z) :
  existsb (λ '(a, b), (i =? r + a) && (j =? c + b)) shape = true
  ↔ (i, j) ∈ place shape r c.
Proof.
  unfold place. induction shape as [|[a b] shape IH]; simpl.
  - split; [done|]. intros Hin. by apply not_elem_of_nil in Hin.
  - rewrite orb_true_iff, andb_true_iff, !Z.eqb_eq, IH, elem_of_cons.
    split; (intros [Heq|Hin]; [left|by right]).
    + destruct Heq as [-> ->]. done.
    + by injection Heq.
Qed.

Lemma cell_place (rows cols : Z) (shape : list (Z * Z)) (r c i j : Z) :
  0 ≤ i < rows → 0 ≤ j < cols →
  cell (seeded rows cols (blank rows cols) (place shape r c)) i j
  = placed_cells shape r c i j.
Proof.
  intros Hi Hj. unfold blank.
  rewrite cell_seeded by (done || apply has_shape_zeros; lia).
  rewrite cell_zeros. unfold placed_cells.
  destruct (existsb _ shape) eqn:Hex.
  - rewrite decide_True; [done|]. by apply existsb_place.
  - rewrite decide_False; [done|]. intros Hin.
    apply existsb_place in Hin. congruence.
Qed.

Lemma next_gen_of_cells (rows cols : Z) (g : ndarray) (f f' : Z → Z → Z) :
  has_shape g rows cols →
  (∀ i j, 0 ≤ i < rows → 0 ≤ j < cols → cell g i j = f i j) →
  evolves rows cols f f' →
  ∀ i j, 0 ≤ i < rows → 0 ≤ j < cols → cell (next_gen rows cols g) i j = f' i j.
Proof.
  intros Hg Hcell Hstep i j Hi Hj.
  rewrite cell_next_gen by done.
  rewrite (count_of_cells rows cols g f), Hcell by (done || lia).
  by apply Hstep.
Qed.

Lemma next_gen_placed (rows cols : Z) (shape shape' : list (Z * Z)) (r c r' c' : Z) :
  0 < rows → 0 < cols →
  evolves rows cols (placed_cells shape r c) (placed_cells shape' r' c') →
  next_gen rows cols (seeded rows cols (blank rows cols) (place shape r c))
  = seeded rows cols (blank rows cols) (place shape' r' c').
Proof.
  intros Hr Hc Hstep.
  apply (grid_ext _ _ rows cols).
  - apply has_shape_next_gen, has_shape_place; lia.
  - apply has_shape_place; lia.
  - intros i j Hi Hj. rewrite cell_place by done.
    apply (next_gen_of_cells rows cols _ (placed_cells shape r c)); try done.
    + apply has_shape_place; lia.
    + intros i' j' Hi' Hj'. by apply cell_place.
Qed.

(** A shape placed on the grid and run for some frames, when the generation
    it reaches is known. *)
Lemma placed_run (rows cols : Z) (shape shape' : list (Z * Z)) (r c r' c' : Z)
    (frames : list Z) (h : heap) :
  0 < rows → 0 < cols →
  Nat.iter (length frames) (next_gen rows cols)
    (seeded rows cols (blank rows cols) (place shape r c))
  = seeded rows cols (blank rows cols) (place shape' r' c') →
  ∃ grid h0 g grid' h' g',
    run_simulation rows cols (place shape r c) h = Ok grid h0
    ∧ h0 !! grid = Some g
    ∧ (∀ i j, 0 ≤ i < rows → 0 ≤ j < cols →
         item g i j = Some (placed_cells shape r c i j))
    ∧ animate rows cols frames grid h0 = Ok grid' h'
    ∧ h' !! grid' = Some g'
    ∧ (∀ i j, 0 ≤ i < rows → 0 ≤ j < cols →
         item g' i j = Some (placed_cells shape' r' c' i j))
    ∧ (shape' = shape → r' = r → c' = c → g' = g).
Proof.
  intros Hr Hc Hiter.
  set (g := seeded rows cols (blank rows cols) (place shape r c)) in *.
  set (g' := seeded rows cols (blank rows cols) (place shape' r' c')) in *.
  assert (has_shape g rows cols) as Hg by (apply has_shape_place; lia).
  assert (has_shape g' rows cols) as Hg' by (apply has_shape_place; lia).
  destruct (animate_run rows cols frames (<[fresh (dom h) := g]> h) (fresh (dom h)) g)
    as (grid' & h' & Hrun & Hlast & Hkeep); [apply lookup_insert_eq | done |].
  exists (fresh (dom h)), (<[fresh (dom h) := g]> h), g, grid', h', g'.
  split; [apply run_simulation_run; lia|].
  split; [apply lookup_insert_eq|].
  split; [intros i j Hi Hj; rewrite (item_in_range g rows cols) by done;
          unfold g; by rewrite cell_place|].
  split; [done|].
  split; [by rewrite Hlast, Hiter|].
  split; [intros i j Hi Hj; rewrite (item_in_range g' rows cols) by done;
          unfold g'; by rewrite cell_place|].
  intros -> -> ->. done.
Qed.

(** The step of a placed shape, by cases on the position of the cell. *)
Ltac settle_shape rows cols i j :=
  rewrite neighbor_cells_wrap by done;
  cbn zeta; cbn [sumZ]; unfold placed_cells;
  cbn [existsb block_shape toad_shape toad_shape' glider_shape glider_shape1
       glider_shape2 glider_shape3];
  destruct (Z.eqb_spec i 0), (Z.eqb_spec i (rows - 1)),
    (Z.eqb_spec j 0), (Z.eqb_spec j (cols - 1));
    try lia; settle_tests; reflexivity.

Lemma block_step (rows cols r c : Z) :
  3 ≤ rows → 3 ≤ cols → 0 ≤ r ≤ rows - 2 → 0 ≤ c ≤ cols - 2 →
  evolves rows cols (placed_cells block_shape r c) (placed_cells block_shape r c).
Proof. intros Hrows Hcols Hr Hc i j Hi Hj. settle_shape rows cols i j. Qed.

Lemma toad_step (rows cols r c : Z) :
  5 ≤ rows → 5 ≤ cols → 1 ≤ r ≤ rows - 3 → 0 ≤ c ≤ cols - 4 →
  evolves rows cols (placed_cells toad_shape r c) (placed_cells toad_shape' r c).
Proof. intros Hrows Hcols Hr Hc i j Hi Hj. settle_shape rows cols i j. Qed.

Lemma toad_step' (rows cols r c : Z) :
  5 ≤ rows → 5 ≤ cols → 1 ≤ r ≤ rows - 3 → 0 ≤ c ≤ cols - 4 →
  evolves rows cols (placed_cells toad_shape' r c) (placed_cells toad_shape r c).
Proof. intros Hrows Hcols Hr Hc i j Hi Hj. settle_shape rows cols i j. Qed.

Lemma glider_step0 (rows cols r c : Z) :
  5 ≤ rows → 5 ≤ cols → 0 ≤ r ≤ rows - 4 → 0 ≤ c ≤ cols - 4 →
  evolves rows cols (placed_cells glider_shape r c) (placed_cells glider_shape1 r c).
Proof. intros Hrows Hcols Hr Hc i j Hi Hj. settle_shape rows cols i j. Qed.

Lemma glider_step1 (rows cols r c : Z) :
  5 ≤ rows → 5 ≤ cols → 0 ≤ r ≤ rows - 4 → 0 ≤ c ≤ cols - 4 →
  evolves rows cols (placed_cells glider_shape1 r c) (placed_cells glider_shape2 r c).
Proof. intros Hrows Hcols Hr Hc i j Hi Hj. settle_shape rows cols i j. Qed.

Lemma glider_step2 (rows cols r c : Z) :
  5 ≤ rows → 5 ≤ cols → 0 ≤ r ≤ rows - 4 → 0 ≤ c ≤ cols - 4 →
  evolves rows cols (placed_cells glider_shape2 r c) (placed_cells glider_shape3 r c).
Proof. intros Hrows Hcols Hr Hc i j Hi Hj. settle_shape rows cols i j. Qed.

Lemma glider_step3 (rows cols r c : Z) :
  5 ≤ rows → 5 ≤ cols → 0 ≤ r ≤ rows - 4 → 0 ≤ c ≤ cols - 4 →
  evolves rows cols (placed_cells glider_shape3 r c)
    (placed_cells glider_shape (r + 1) (c + 1)).
Proof. intros Hrows Hcols Hr Hc i j Hi Hj. settle_shape rows cols i j. Qed.

(** The 2×2 block is a still life.  On a grid of at least 3 rows and 3
    columns, a block with all four cells in range is seeded as such, and
    after any number of frames the grid is equal to the seeded one. *)
Theorem block_is_still_life (rows cols r c : Z) (frames : list Z) (h : heap) :
  3 ≤ rows → 3 ≤ cols → 0 ≤ r ≤ rows - 2 → 0 ≤ c ≤ cols - 2 →
  ∃ grid h0 g grid' h',
    run_simulation rows cols (place block_shape r c) h = Ok grid h0
    ∧ h0 !! grid = Some g
    ∧ (∀ i j, 0 ≤ i < rows → 0 ≤ j < cols →
         item g i j = Some (placed_cells block_shape r c i j))
    ∧ animate rows cols frames grid h0 = Ok grid' h'
    ∧ h' !! grid' = Some g.
Proof.
  intros Hrows Hcols Hr Hc.
  destruct (placed_run rows cols block_shape block_shape r c r c frames h)
    as (grid & h0 & g & grid' & h' & g' & Hrun & Hgrid & Hcells & Hani & Hgrid' & _ & Hsame);
    [lia | lia | |].
  { induction (length frames) as [|n IH]; [done|].
    rewrite Nat.iter_succ, IH.
    apply next_gen_placed; [lia | lia |]. by apply block_step. }
  exists grid, h0, g, grid', h'. repeat (split; [done|]).
  by rewrite Hgrid', Hsame.
Qed.

Lemma block_is_still_life_witness :
  ∃ grid h0 g grid' h',
    run_simulation GRID_ROWS GRID_COLS (place block_shape 0 58) ∅ = Ok grid h0
    ∧ h0 !! grid = Some g
    ∧ (∀ i j, 0 ≤ i < GRID_ROWS → 0 ≤ j < GRID_COLS →
         item g i j = Some (placed_cells block_shape 0 58 i j))
    ∧ animate GRID_ROWS GRID_COLS [0; 1; 2] grid h0 = Ok grid' h'
    ∧ h' !! grid' = Some g.
Proof.
  apply (block_is_still_life GRID_ROWS GRID_COLS 0 58 [0; 1; 2] ∅);
    unfold GRID_ROWS, GRID_COLS; lia.
Defined.



(** The glider moves one row down and one column right every 4 frames.  On
    a grid of at least 5 rows and 5 columns, a glider whose four phases lie
    in range is seeded as such, and after 4 frames the live cells are
    exactly those of the glider placed one row and one column further.  The
    application's [Glider] is the glider placed at (25, 25). *)
Theorem glider_moves_diagonally (rows cols r c : Z) (frames : list Z) (h : heap) :
  5 ≤ rows → 5 ≤ cols → 0 ≤ r ≤ rows - 4 → 0 ≤ c ≤ cols - 4 →
  length frames = 4%nat →
  ∃ grid h0 g grid' h' g',
    run_simulation rows cols (place glider_shape r c) h = Ok grid h0
    ∧ h0 !! grid = Some g
    ∧ (∀ i j, 0 ≤ i < rows → 0 ≤ j < cols →
         item g i j = Some (placed_cells glider_shape r c i j))
    ∧ animate rows cols frames grid h0 = Ok grid' h'
    ∧ h' !! grid' = Some g'
    ∧ (∀ i j, 0 ≤ i < rows → 0 ≤ j < cols →
         item g' i j = Some (placed_cells glider_shape (r + 1) (c + 1) i j)).
Proof.
  intros Hrows Hcols Hr Hc Hlen.
  destruct (placed_run rows cols glider_shape glider_shape r c (r + 1) (c + 1) frames h)
    as (grid & h0 & g & grid' & h' & g' & Hrun & Hgrid & Hcells & Hani & Hgrid' & Hcells' & _);
    [lia | lia | |].
  { rewrite Hlen, !Nat.iter_succ_r.
    rewrite (next_gen_placed rows cols glider_shape glider_shape1 r c r c)
      by (lia || by apply glider_step0).
    rewrite (next_gen_placed rows cols glider_shape1 glider_shape2 r c r c)
      by (lia || by apply glider_step1).
    rewrite (next_gen_placed rows cols glider_shape2 glider_shape3 r c r c)
      by (lia || by apply glider_step2).
    rewrite (next_gen_placed rows cols glider_shape3 glider_shape r c (r + 1) (c + 1))
      by (lia || by apply glider_step3).
    done. }
  by exists grid, h0, g, grid', h', g'.
Qed.

Lemma glider_moves_diagonally_witness :
  ∃ grid h0 g grid' h' g',
    run_simulation GRID_ROWS GRID_COLS Glider ∅ = Ok grid h0
    ∧ h0 !! grid = Some g
    ∧ (∀ i j, 0 ≤ i < GRID_ROWS → 0 ≤ j < GRID_COLS →
         item g i j = Some (placed_cells glider_shape 25 25 i j))
    ∧ animate GRID_ROWS GRID_COLS [0; 1; 2; 3] grid h0 = Ok grid' h'
    ∧ h' !! grid' = Some g'
    ∧ (∀ i j, 0 ≤ i < GRID_ROWS → 0 ≤ j < GRID_COLS →
         item g' i j = Some (placed_cells glider_shape (25 + 1) (25 + 1) i j)).
Proof.
  apply (glider_moves_diagonally GRID_ROWS GRID_COLS 25 25 [0; 1; 2; 3] ∅);
    unfold GRID_ROWS, GRID_COLS; (lia || reflexivity).
Defined.

(** The entry "Lightweight Spaceship (LWSS)" of the catalogue is not a
    spaceship on the application's grid: seeded, it has 9 live cells, and
    after 4 frames, the period of a lightweight spaceship, the grid has 14
    live cells, so it is no moved copy of the seeded pattern. *)
Lemma lwss_generation_four :
  population (seeded 60 60 (blank 60 60) LWSS) = 9
  ∧ population (Nat.iter 4 (next_gen 60 60) (seeded 60 60 (blank 60 60) LWSS)) = 14.
Proof. split; vm_compute; reflexivity. Qed.

Theorem lwss_entry_is_not_a_spaceship (f1 f2 f3 f4 : Z) (h : heap) :
  pattern "Gliders" "Lightweight Spaceship (LWSS)" = Some LWSS
  ∧ ∃ grid h0 g grid' h' g',
      run_simulation GRID_ROWS GRID_COLS LWSS h = Ok grid h0
      ∧ h0 !! grid = Some g
      ∧ population g = 9
      ∧ animate GRID_ROWS GRID_COLS [f1; f2; f3; f4] grid h0 = Ok grid' h'
      ∧ h' !! grid' = Some g'
      ∧ population g' = 14.
Proof.
  split; [reflexivity|].
  set (g := seeded 60 60 (blank 60 60) LWSS).
  destruct (animate_run 60 60 [f1; f2; f3; f4] (<[fresh (dom h) := g]> h)
              (fresh (dom h)) g)
    as (grid' & h' & Hrun & Hlast & _);
    [apply lookup_insert_eq | apply has_shape_place; lia |].
  exists (fresh (dom h)), (<[fresh (dom h) := g]> h), g, grid', h',
    (Nat.iter 4 (next_gen 60 60) g).
  split; [apply (run_simulation_run 60 60); lia|].
  split; [apply lookup_insert_eq|].
  split; [apply lwss_generation_four|].
  split; [done|]. split; [done|].
  apply lwss_generation_four.
Qed.

(** * The application: buttons, tabs and animations *)

Import GameOfLifeApp.

Lemma stop_all_length (active : list nat) (anis : list animation) :
  length (foldl (λ anis ani, alter stop ani anis) anis active) = length anis.
Proof.
  revert anis. induction active as [|a active IH]; intros anis; simpl; [done|].
  by rewrite IH, length_alter.
Qed.

Lemma stop_all_lookup (active : list nat) (anis : list animation) (ani : nat) :
  foldl (λ anis ani, alter stop ani anis) anis active !! ani
  = (λ a, if decide (ani ∈ active) then stop a else a) <$> anis !! ani.
Proof.
  revert anis. induction active as [|b active IH]; intros anis; cbn [foldl].
  - destruct (anis !! ani); cbn [fmap option_fmap option_map]; [|done].
    by rewrite decide_False by apply not_elem_of_nil.
  - rewrite IH, list_lookup_alter.
    destruct (decide (b = ani)) as [->|Hne].
    + destruct (anis !! ani) as [a|]; cbn [fmap option_fmap option_map]; [|done].
      rewrite (decide_True (P := ani ∈ ani :: active)) by left.
      by case_decide.
    + destruct (anis !! ani) as [a|]; cbn [fmap option_fmap option_map]; [|done].
      destruct (decide (ani ∈ active)) as [Hin|Hout].
      * by rewrite decide_True by by right.
      * rewrite decide_False; [done|].
        intros Hin. apply elem_of_cons in Hin as [->|Hin]; done.
Qed.

Lemma stop_stopped (a : animation) : running a = false → stop a = a.
Proof. destruct a as [r g i]. simpl. by intros ->. Qed.

Section Application.

Variables rows cols : Z.
Variable patterns : list (string * list (string * list (Z * Z))).

Local Abbreviation consistent := (GameOfLifeApp.consistent rows cols patterns).
Local Abbreviation run_simulation := (GameOfLifeApp.run_simulation rows cols).
Local Abbreviation call_update := (GameOfLifeApp.call_update rows cols).
Local Abbreviation handle := (GameOfLifeApp.handle rows cols).
Local Abbreviation mainloop := (GameOfLifeApp.mainloop rows cols).
Local Abbreviation main := (GameOfLifeApp.main rows cols patterns).
Local Abbreviation __init__ := (GameOfLifeApp.__init__ patterns).
Local Abbreviation started := (GameOfLifeApp.started patterns).

(** ** The invariant *)

Lemma consistent_init : consistent __init__.
Proof.
  split; simpl.
  - done.
  - intros ani Hin. by apply not_elem_of_nil in Hin.
  - intros ani a Ha. done.
  - intros ani a Ha. done.
Qed.

(** After the stop loop no animation runs. *)
Lemma stopped_none_running (self : app) (ani : nat) (a : animation) :
  consistent self →
  foldl (λ anis ani, alter stop ani anis) (animations self) (active_animations self)
    !! ani = Some a →
  running a = false
  ∧ ∃ a0, animations self !! ani = Some a0 ∧ grid a = grid a0 ∧ img a = img a0.
Proof.
  intros Hc Ha. rewrite stop_all_lookup in Ha.
  destruct (animations self !! ani) as [a0|] eqn:Ha0; simpl in Ha; [|done].
  injection Ha as <-. case_decide as Hin.
  - split; [done|]. by exists a0.
  - split; [|by exists a0].
    destruct (running a0) eqn:Hrun; [|done].
    exfalso. apply Hin. by apply (consistent_running _ _ _ _ Hc ani a0).
Qed.

Lemma run_simulation_cases (cells : list (Z * Z)) (title : string) (self : app) :
  (0 ≤ rows ∧ 0 ≤ cols
   ∧ run_simulation cells title self
     = App (notebook self ++ [title]) (Some (length (notebook self)))
         (scrollable_frame self)
         [length (animations self)]
         (foldl (λ anis ani, alter stop ani anis) (animations self)
            (active_animations self)
          ++ [Animation true (fresh (dom (arrays self))) (fresh (dom (arrays self)))])
         (<[fresh (dom (arrays self)) := seeded rows cols (blank rows cols) cells]>
            (arrays self))
         (printed self))
  ∨ ((rows < 0 ∨ cols < 0)
     ∧ run_simulation cells title self
       = App (notebook self ++ [title]) (Some (length (notebook self)))
           (scrollable_frame self) []
           (foldl (λ anis ani, alter stop ani anis) (animations self)
              (active_animations self))
           (arrays self) (printed self ++ [ValueError])).
Proof.
  unfold GameOfLifeApp.run_simulation.
  destruct (decide (0 ≤ rows ∧ 0 ≤ cols)) as [[Hr Hc]|Hneg].
  - left. split; [done|]. split; [done|].
    rewrite (run_simulation_run rows cols cells _ Hr Hc).
    by rewrite stop_all_length.
  - right. split; [lia|].
    by rewrite (run_simulation_negative rows cols cells) by lia.
Qed.

Lemma consistent_run_simulation (cells : list (Z * Z)) (title : string) (self : app) :
  consistent self → consistent (run_simulation cells title self).
Proof.
  intros Hc.
  pose proof (stop_all_length (active_animations self) (animations self)) as Hlen.
  destruct (run_simulation_cases cells title self)
    as [(Hr & Hcols & ->)|(Hneg & ->)].
  - split; cbn [scrollable_frame active_animations animations arrays].
    + apply (consistent_frame _ _ _ _ Hc).
    + intros ani Hin. apply list_elem_of_singleton in Hin as ->.
      split; [done|]. rewrite length_app, Hlen. simpl. lia.
    + intros ani a Ha Hrunning.
      apply lookup_app_Some in Ha as [Ha|[Hge Ha]].
      * apply (stopped_none_running self ani a Hc) in Ha as [Hstop _]. congruence.
      * apply list_lookup_singleton_Some in Ha as [Hz _].
        apply list_elem_of_singleton. lia.
    + intros ani a Ha.
      apply lookup_app_Some in Ha as [Ha|[Hge Ha]].
      * apply (stopped_none_running self ani a Hc) in Ha as (_ & a0 & Ha0 & Hgrid & Himg0).
        destruct (consistent_grid _ _ _ _ Hc ani a0 Ha0) as (Himg & g0 & Hg0 & Hshape & Hb).
        rewrite Hgrid, Himg0.
        split; [done|]. exists g0. split; [|done].
        rewrite lookup_insert_ne; [done|].
        intros Heq. pose proof (fresh_unused (arrays self)) as Hf.
        rewrite Heq in Hf. congruence.
      * apply list_lookup_singleton_Some in Ha as [_ <-]. simpl.
        split; [done|]. exists (seeded rows cols (blank rows cols) cells).
        rewrite lookup_insert_eq. split; [done|].
        split; [by apply has_shape_place | apply binary_seeded, binary_zeros].
  - split; cbn [scrollable_frame active_animations animations arrays].
    + apply (consistent_frame _ _ _ _ Hc).
    + intros ani Hin. by apply not_elem_of_nil in Hin.
    + intros ani a Ha Hrunning.
      apply (stopped_none_running self ani a Hc) in Ha as [Hstop _]. congruence.
    + intros ani a Ha.
      apply (stopped_none_running self ani a Hc) in Ha as (_ & a0 & Ha0 & Hgrid & Himg0).
      rewrite Hgrid, Himg0.
      apply (consistent_grid _ _ _ _ Hc ani a0 Ha0).
Qed.

Lemma consistent_call_update (ani : nat) (frame : Z) (self : app) :
  consistent self → consistent (call_update ani frame self).
Proof.
  intros Hc. unfold GameOfLifeApp.call_update.
  destruct (animations self !! ani) as [[[] grid im]|] eqn:Hani; [|done|done].
  destruct (consistent_grid _ _ _ _ Hc ani _ Hani) as (_ & g & Hg & Hshape & Hbin).
  simpl in Hg. rewrite (update_run rows cols _ frame grid g Hg Hshape).
  split; simpl.
  - apply (consistent_frame _ _ _ _ Hc).
  - intros b Hin. rewrite length_insert.
    by apply (consistent_active _ _ _ _ Hc).
  - intros b a Ha Hrunning.
    destruct (decide (b = ani)) as [->|Hne].
    + by apply (consistent_running _ _ _ _ Hc ani _ Hani).
    + rewrite list_lookup_insert_ne in Ha by done.
      by apply (consistent_running _ _ _ _ Hc b a).
  - intros b a Ha.
    destruct (decide (b = ani)) as [->|Hne].
    + rewrite list_lookup_insert_eq in Ha by (by eapply lookup_lt_Some).
      injection Ha as <-. simpl. split; [done|].
      exists (next_gen rows cols g). rewrite lookup_insert_eq.
      split; [done|]. split; [by apply has_shape_next_gen | by apply binary_next_gen].
    + rewrite list_lookup_insert_ne in Ha by done.
      destruct (consistent_grid _ _ _ _ Hc b a Ha) as (Himg & g0 & Hg0 & Hs0 & Hb0).
      split; [done|]. exists g0. split; [|done].
      rewrite lookup_insert_ne; [done|].
      intros Heq. pose proof (fresh_unused (arrays self)) as Hf.
      rewrite Heq in Hf. congruence.
Qed.

Lemma consistent_handle (self : app) (e : event) :
  consistent self → consistent (handle self e).
Proof.
  intros Hc. destruct e as [k|ani frame]; simpl.
  - destruct (scrollable_frame self !! k) as [[text|text cells name]|]; try done.
    by apply consistent_run_simulation.
  - by apply consistent_call_update.
Qed.

Lemma consistent_mainloop (events : list event) (self : app) :
  consistent self → consistent (mainloop self events).
Proof.
  revert self. induction events as [|e events IH]; intros self Hc; simpl; [done|].
  by apply IH, consistent_handle.
Qed.

Lemma consistent_main (events : list event) : consistent (main events).
Proof. apply consistent_mainloop, consistent_init. Qed.

Lemma main_snoc (events : list event) (e : event) :
  main (events ++ [e]) = handle (main events) e.
Proof. unfold GameOfLifeApp.main, GameOfLifeApp.mainloop. by rewrite foldl_app. Qed.

Lemma main_app (events events' : list event) :
  main (events ++ events') = mainloop (main events) events'.
Proof. unfold GameOfLifeApp.main, GameOfLifeApp.mainloop. by rewrite foldl_app. Qed.

Lemma started_snoc (events : list event) (e : event) :
  started (events ++ [e]) = started events ++ started [e].
Proof. unfold GameOfLifeApp.started. by rewrite omap_app. Qed.

Lemma started_press (k : nat) :
  started [Press k]
  = match scrollable_frame __init__ !! k with
    | Some (Button _ _ name) => [name]
    | _ => []
    end.
Proof.
  unfold GameOfLifeApp.started. cbn [omap list_omap].
  by destruct (scrollable_frame __init__ !! k) as [[text|text cells name]|].
Qed.

Lemma started_timer (ani : nat) (frame : Z) : started [Timer ani frame] = [].
Proof. done. Qed.

(** ** One animation at a time *)

(** After any sequence of button presses and timer ticks at most one
    animation runs: a running animation is the only entry of
    [active_animations], it is the newest animation, and no other animation
    runs. *)
Theorem at_most_one_animation_runs (events : list event) (ani : nat) (a : animation) :
  animations (main events) !! ani = Some a → running a = true →
  active_animations (main events) = [ani]
  ∧ S ani = length (animations (main events))
  ∧ ∀ ani' a', animations (main events) !! ani' = Some a' → running a' = true →
      ani' = ani.
Proof.
  intros Ha Hrun. pose proof (consistent_main events) as Hc.
  pose proof (consistent_running _ _ _ _ Hc ani a Ha Hrun) as Hin.
  destruct (consistent_active _ _ _ _ Hc ani Hin) as [Hactive Hlast].
  split; [done|]. split; [done|].
  intros ani' a' Ha' Hrun'.
  pose proof (consistent_running _ _ _ _ Hc ani' a' Ha' Hrun') as Hin'.
  rewrite Hactive in Hin'. by apply list_elem_of_singleton in Hin'.
Qed.

(** ** The tabs *)


(** ** Arrays are written once *)

Lemma handle_keeps_arrays (self : app) (e : event) (ref : nat) (g : ndarray) :
  consistent self → arrays self !! ref = Some g →
  arrays (handle self e) !! ref = Some g.
Proof.
  intros Hc Hg.
  assert (fresh (dom (arrays self)) ≠ ref) as Hne.
  { intros Heq. pose proof (fresh_unused (arrays self)) as Hf.
    rewrite Heq in Hf. congruence. }
  destruct e as [k|ani frame]; simpl.
  - destruct (scrollable_frame self !! k) as [[text|text cells name]|]; try done.
    destruct (run_simulation_cases cells name self) as [(_ & _ & ->)|(_ & ->)];
      cbn [arrays]; [|done].
    by rewrite lookup_insert_ne.
  - unfold GameOfLifeApp.call_update.
    destruct (animations self !! ani) as [[[] grid im]|] eqn:Hani; [|done|done].
    destruct (consistent_grid _ _ _ _ Hc ani _ Hani) as (_ & g0 & Hg0 & Hshape & Hbin).
    simpl in Hg0. rewrite (update_run rows cols _ frame grid g0 Hg0 Hshape).
    simpl. by rewrite lookup_insert_ne.
Qed.

Lemma mainloop_keeps_arrays (events : list event) (self : app) (ref : nat) (g : ndarray) :
  consistent self → arrays self !! ref = Some g →
  arrays (mainloop self events) !! ref = Some g.
Proof.
  revert self. induction events as [|e events IH]; intros self Hc Hg; simpl; [done|].
  apply IH; [by apply consistent_handle | by apply handle_keeps_arrays].
Qed.

(** An array that exists when an event handler returns is never modified
    by a later event: every generation is written into a new copy before
    it is shown, and a new simulation writes a new grid.  What a tab shows,
    and what was handed to an image, cannot change behind it. *)
Theorem arrays_are_never_modified (events events' : list event) (ref : nat) (g : ndarray) :
  arrays (main events) !! ref = Some g →
  arrays (main (events ++ events')) !! ref = Some g.
Proof.
  intros Hg. rewrite main_app.
  apply mainloop_keeps_arrays; [apply consistent_main | done].
Qed.

(** ** Stopped simulations *)

Lemma handle_keeps_stopped (self : app) (e : event) (ani : nat) (a : animation) :
  consistent self → animations self !! ani = Some a → running a = false →
  animations (handle self e) !! ani = Some a.
Proof.
  intros Hc Ha Hstop. destruct e as [k|ani' frame]; simpl.
  - destruct (scrollable_frame self !! k) as [[text|text cells name]|]; try done.
    assert (foldl (λ anis ani, alter stop ani anis) (animations self)
              (active_animations self) !! ani = Some a) as Hlook.
    { rewrite stop_all_lookup, Ha. simpl. case_decide; [|done]. by rewrite stop_stopped. }
    destruct (run_simulation_cases cells name self) as [(_ & _ & ->)|(_ & ->)];
      cbn [animations]; [|done].
    by apply lookup_app_l_Some.
  - unfold GameOfLifeApp.call_update.
    destruct (animations self !! ani') as [[[] grid im]|] eqn:Hani; [|done|done].
    destruct (update _ _ _ _ _); simpl; [|done].
    rewrite list_lookup_insert_ne; [done|]. intros ->.
    rewrite Ha in Hani. injection Hani as ->. done.
Qed.

Lemma mainloop_keeps_stopped (events : list event) (self : app) (ani : nat) (a : animation) :
  consistent self → animations self !! ani = Some a → running a = false →
  animations (mainloop self events) !! ani = Some a.
Proof.
  revert self. induction events as [|e events IH]; intros self Hc Ha Hstop; simpl; [done|].
  apply IH; [by apply consistent_handle | by apply handle_keeps_stopped | done].
Qed.

(** A stopped animation is never started again: whatever happens later, it
    stays stopped with the same grid, and the array its image shows keeps
    its contents. *)
Theorem stopped_animation_stays_frozen (events events' : list event) (ani : nat)
    (a : animation) :
  animations (main events) !! ani = Some a → running a = false →
  animations (main (events ++ events')) !! ani = Some a
  ∧ ∃ g, arrays (main events) !! img a = Some g
         ∧ arrays (main (events ++ events')) !! img a = Some g.
Proof.
  intros Ha Hstop. pose proof (consistent_main events) as Hc.
  split.
  - rewrite main_app. by apply mainloop_keeps_stopped.
  - destruct (consistent_grid _ _ _ _ Hc ani a Ha) as (Himg & g & Hg & _).
    exists g. rewrite Himg. split; [done|]. by apply arrays_are_never_modified.
Qed.

(** ** A timer tick *)


(** ** What a tab shows *)

(** Every animation, running or stopped, shows the array its closure holds,
    and that array is a grid of the program's dimensions whose cells are
    all 0 or 1. *)
Theorem every_animation_shows_its_grid (events : list event) (ani : nat) (a : animation) :
  animations (main events) !! ani = Some a →
  img a = grid a
  ∧ ∃ g, arrays (main events) !! grid a = Some g
         ∧ has_shape g rows cols
         ∧ ∀ i j, 0 ≤ i < rows → 0 ≤ j < cols →
             item g i j = Some 0 ∨ item g i j = Some 1.
Proof.
  intros Ha.
  destruct (consistent_grid _ _ _ _ (consistent_main events) ani a Ha)
    as (Himg & g & Hg & Hshape & Hbin).
  split; [done|]. exists g. split; [done|]. split; [done|].
  intros i j Hi Hj. rewrite (item_in_range g rows cols i j Hshape Hi Hj).
  destruct (cell_binary g i j Hbin) as [-> | ->]; auto.
Qed.

(** ** Pressing a button *)


(** ** The error handler *)


(** ** The buttons *)


End Application.

(** ** The application with its own constants *)

Lemma scrollable_frame_of_application :
  scrollable_frame (__init__ PATTERNS)
  = [Label "Gliders"; Button "Glider" Glider "Glider";
     Button "Lightweight Spaceship (LWSS)" LWSS "Lightweight Spaceship (LWSS)";
     Label "Oscillators"; Button "Blinker" Blinker "Blinker";
     Button "Toad" Toad "Toad"].
Proof. reflexivity. Qed.

Lemma at_most_one_animation_runs_witness :
  active_animations (main GRID_ROWS GRID_COLS PATTERNS [Press 1; Press 0; Press 4])
  = [1%nat]
  ∧ 2%nat = length (animations (main GRID_ROWS GRID_COLS PATTERNS
                                  [Press 1; Press 0; Press 4]))
  ∧ ∀ ani' a',
      animations (main GRID_ROWS GRID_COLS PATTERNS [Press 1; Press 0; Press 4]) !! ani'
      = Some a' →
      running a' = true → ani' = 1%nat.
Proof.
  apply (at_most_one_animation_runs GRID_ROWS GRID_COLS PATTERNS
           [Press 1; Press 0; Press 4] 1%nat (Animation true 1%nat 1%nat)).
  - vm_compute. reflexivity.
  - reflexivity.
Defined.

Lemma arrays_are_never_modified_witness :
  arrays (main GRID_ROWS GRID_COLS PATTERNS
            ([Press 4] ++ [Timer 0 0; Press 1; Timer 1 0; Timer 0 5])) !! 0%nat
  = Some (seeded GRID_ROWS GRID_COLS (blank GRID_ROWS GRID_COLS) Blinker).
Proof.
  apply (arrays_are_never_modified GRID_ROWS GRID_COLS PATTERNS [Press 4]).
  vm_compute. reflexivity.
Defined.

Lemma stopped_animation_stays_frozen_witness :
  animations (main GRID_ROWS GRID_COLS PATTERNS
                ([Press 4; Press 1] ++ [Timer 0 0; Timer 1 0; Press 5])) !! 0%nat
  = Some (Animation false 0%nat 0%nat)
  ∧ ∃ g, arrays (main GRID_ROWS GRID_COLS PATTERNS [Press 4; Press 1])
           !! img (Animation false 0%nat 0%nat) = Some g
         ∧ arrays (main GRID_ROWS GRID_COLS PATTERNS
                     ([Press 4; Press 1] ++ [Timer 0 0; Timer 1 0; Press 5]))
             !! img (Animation false 0%nat 0%nat) = Some g.
Proof.
  apply (stopped_animation_stays_frozen GRID_ROWS GRID_COLS PATTERNS [Press 4; Press 1]).
  - vm_compute. reflexivity.
  - reflexivity.
Defined.


Lemma every_animation_shows_its_grid_witness :
  img (Animation false 0%nat 0%nat) = grid (Animation false 0%nat 0%nat)
  ∧ ∃ g, arrays (main GRID_ROWS GRID_COLS PATTERNS [Press 5; Press 2])
           !! grid (Animation false 0%nat 0%nat) = Some g
         ∧ has_shape g GRID_ROWS GRID_COLS
         ∧ ∀ i j, 0 ≤ i < GRID_ROWS → 0 ≤ j < GRID_COLS →
             item g i j = Some 0 ∨ item g i j = Some 1.
Proof.
  apply (every_animation_shows_its_grid GRID_ROWS GRID_COLS PATTERNS
           [Press 5; Press 2] 0%nat).
  vm_compute. reflexivity.
Defined.


